(** * A region (arena) allocator: the engine of [arena_alloc.hh]

    Shallow embedding of [arena::detail] (both backend variants) and of the
    [arena::Allocator<T>] front end, followed by the properties of the
    engine.

    Conventions of the embedding.
    - [std::size_t] and [char *] are 64-bit quantities: a value is a [Z] in
      [0, 2^64) and every addition or subtraction the code performs on them
      is reduced modulo [2^64] ([wrap64]).  [unsigned] is 32 bits wide
      ([wrap32]).  [std::ptrdiff_t] is the signed reading of a 64-bit word
      ([to_ptrdiff]).  The engine compares addresses such as [top () + n]
      that may lie beyond the region; they are computed as the flat 64-bit
      addresses of the engine's targets.
    - [S_regions], a [std::vector<Region>], is a [list Region]; a
      [region_iterator] is an index into it, [S_regions.end ()] is [None].
    - The global [S_regions] is threaded through every operation.
    - The backing store ([S_alloc.allocate], [mmap]/[VirtualAlloc]) belongs to
      the environment: every operation that may construct a [Region] takes
      the store's answer as a function from the requested byte count to the
      address it hands out.  A store that fails does not return
      ([std::bad_alloc] in one variant, [exit (1)] in the other); such runs
      end there and are not modelled.
    - The bytes stored in a region are not modelled, so the [std::memcpy] of
      [reallocate] leaves no trace; the mutex only serialises calls, which
      is what a trace of calls already is. *)

From stdpp Require Import base numbers list.

Local Open Scope Z_scope.

(** ** Machine arithmetic *)

Definition wrap64 (z : Z) : Z := z mod 2 ^ 64.
Definition wrap32 (z : Z) : Z := z mod 2 ^ 32.

(** Conversion of a 64-bit unsigned word to [std::ptrdiff_t]. *)
Definition to_ptrdiff (z : Z) : Z := if z <? 2 ^ 63 then z else z - 2 ^ 64.

Definition nullptr : Z := 0.

(** The loop [for (it = begin; it != end; ++it)] that returns the first
    iterator whose element passes the test, and [end] ([None]) when none
    does.  A successful search yields the position together with the element
    it designates. *)
Fixpoint scan {A : Type} (P : A → bool) (it : nat) (l : list A)
  : option (nat * A) :=
  match l with
  | [] => None
  | x :: l' => if P x then Some (it, x) else scan P (S it) l'
  end.

(** ** The heap-delegating variant (regions come from [std::allocator<char>]) *)

Module HeapDelegating.

Definition S_capacity : Z := 4096.

Record Region : Type := mkRegion {
  M_capacity : Z;
  M_data : Z;
  M_size : Z;
  M_ref_count : Z
}.

(** [Region (std::size_t min_cap)] *)
Definition Region_new (S_alloc_allocate : Z → Z) (min_cap : Z) : Region :=
  let capacity := Z.max S_capacity min_cap in
  {| M_capacity := capacity;
     M_data := S_alloc_allocate capacity;
     M_size := 0;
     M_ref_count := 0 |}.

Definition data (r : Region) : Z := M_data r.
Definition top (r : Region) : Z := wrap64 (M_data r + M_size r).
Definition end_ (r : Region) : Z := wrap64 (M_data r + M_capacity r).

Definition resize (diff : Z) (r : Region) : Region :=
  {| M_capacity := M_capacity r; M_data := M_data r;
     M_size := wrap64 (M_size r + diff);
     M_ref_count := M_ref_count r |}.

Definition clear (r : Region) : Region :=
  {| M_capacity := M_capacity r; M_data := M_data r;
     M_size := 0;
     M_ref_count := M_ref_count r |}.

Definition ref (r : Region) : Region :=
  {| M_capacity := M_capacity r; M_data := M_data r;
     M_size := M_size r;
     M_ref_count := wrap32 (M_ref_count r + 1) |}.

Definition unref (r : Region) : Region :=
  {| M_capacity := M_capacity r; M_data := M_data r;
     M_size := M_size r;
     M_ref_count := wrap32 (M_ref_count r - 1) |}.

Definition unused (r : Region) : bool := M_ref_count r =? 0.

(** [p >= it->data () && p < it->top ()] *)
Definition contains (p : Z) (r : Region) : bool :=
  (data r <=? p) && (p <? top r).

(** [it->top () + n < it->end ()] *)
Definition fits (n : Z) (r : Region) : bool :=
  wrap64 (top r + n) <? end_ r.

Definition find_region_containing (p : Z) (S_regions : list Region)
  : option (nat * Region) :=
  scan (contains p) 0 S_regions.

Definition find_region_fitting (n hint : Z) (S_regions : list Region)
  : option (nat * Region) :=
  let first_fit := scan (fits n) 0 S_regions in
  if hint =? nullptr then first_fit
  else
    match find_region_containing hint S_regions with
    | Some (it, r) => if fits n r then Some (it, r) else first_fit
    | None => first_fit
    end.

Definition allocate (S_alloc_allocate : Z → Z) (n hint : Z)
    (S_regions : list Region) : Z * list Region :=
  let '(it, reg, regions) :=
    match find_region_fitting n hint S_regions with
    | Some (it, reg) => (it, reg, S_regions)
    | None =>
        let reg := Region_new S_alloc_allocate n in
        (length S_regions, reg, S_regions ++ [reg])
    end in
  (top reg, <[it := ref (resize (to_ptrdiff n) reg)]> regions).

Definition deallocate (p n : Z) (S_regions : list Region) : list Region :=
  match find_region_containing p S_regions with
  | None => S_regions
  | Some (it, reg) =>
      let reg := unref reg in
      let reg :=
        if unused reg then clear reg
        else if wrap64 (top reg - n) =? p
             then resize (to_ptrdiff (wrap64 (0 - n))) reg
             else reg in
      <[it := reg]> S_regions
  end.

Definition reallocate (S_alloc_allocate : Z → Z) (p from_n to_n hint : Z)
    (S_regions : list Region) : Z * list Region :=
  if p =? nullptr then allocate S_alloc_allocate to_n hint S_regions
  else
    match find_region_containing p S_regions with
    | None => (nullptr, S_regions)
    | Some (it, reg) =>
        if to_n =? 0 then (nullptr, deallocate p from_n S_regions)
        else
          let diff := to_ptrdiff (wrap64 (to_n - from_n)) in
          if (wrap64 (top reg - from_n) =? p)
             && (wrap64 (top reg + diff) <? end_ reg)
          then (p, <[it := resize diff reg]> S_regions)
          else if to_n <=? from_n then (p, S_regions)
          else
            let '(new_p, regions) :=
              allocate S_alloc_allocate to_n hint S_regions in
            (new_p, deallocate p from_n regions)
    end.

Definition default_region_size : Z := S_capacity.

(** [destruct ()] hands the block of the region back to the store,
    [S_alloc.deallocate (M_data, M_capacity)]; the call is recorded by its
    arguments. *)
Definition destruct (r : Region) : Z * Z := (M_data r, M_capacity r).

(** [~RegionDeleter ()] destructs every region of the registry, in order:
    the releases made at teardown. *)
Definition RegionDeleter_dtor (S_regions : list Region) : list (Z * Z) :=
  destruct <$> S_regions.

End HeapDelegating.

(** ** The virtual-memory variant (regions come from [mmap]/[VirtualAlloc]) *)

Module VirtualMemory.

Definition S_capacity : Z := 4096.

Record Region : Type := mkRegion {
  M_capacity : Z;
  M_data : Z;
  M_size : Z;
  M_ref_count : Z
}.

(** [Region (std::size_t min_cap)]; [allocate_memory] either returns the
    mapping or ends the process, so the constructor sees an address. *)
Definition Region_new (allocate_memory : Z → Z) (min_cap : Z) : Region :=
  let capacity := Z.max S_capacity min_cap in
  {| M_capacity := capacity;
     M_data := allocate_memory capacity;
     M_size := 0;
     M_ref_count := 0 |}.

Definition data (r : Region) : Z := M_data r.
Definition top (r : Region) : Z := wrap64 (M_data r + M_size r).
Definition end_ (r : Region) : Z := wrap64 (M_data r + M_capacity r).

Definition resize (diff : Z) (r : Region) : Region :=
  {| M_capacity := M_capacity r; M_data := M_data r;
     M_size := wrap64 (M_size r + diff);
     M_ref_count := M_ref_count r |}.

Definition clear (r : Region) : Region :=
  {| M_capacity := M_capacity r; M_data := M_data r;
     M_size := 0;
     M_ref_count := M_ref_count r |}.

Definition ref (r : Region) : Region :=
  {| M_capacity := M_capacity r; M_data := M_data r;
     M_size := M_size r;
     M_ref_count := wrap32 (M_ref_count r + 1) |}.

Definition unref (r : Region) : Region :=
  {| M_capacity := M_capacity r; M_data := M_data r;
     M_size := M_size r;
     M_ref_count := wrap32 (M_ref_count r - 1) |}.

Definition unused (r : Region) : bool := M_ref_count r =? 0.

Definition find_region_containing (p : Z) (S_regions : list Region)
  : option (nat * Region) :=
  scan (λ r, (data r <=? p) && (p <? top r)) 0 S_regions.

Definition find_region_fitting (n hint : Z) (S_regions : list Region)
  : option (nat * Region) :=
  let fits r := wrap64 (top r + n) <? end_ r in
  let first_fit := scan fits 0 S_regions in
  if hint =? nullptr then first_fit
  else
    match find_region_containing hint S_regions with
    | Some (it, r) => if fits r then Some (it, r) else first_fit
    | None => first_fit
    end.

Definition allocate (allocate_memory : Z → Z) (n hint : Z)
    (S_regions : list Region) : Z * list Region :=
  let '(it, reg, regions) :=
    match find_region_fitting n hint S_regions with
    | Some (it, reg) => (it, reg, S_regions)
    | None =>
        let reg := Region_new allocate_memory n in
        (length S_regions, reg, S_regions ++ [reg])
    end in
  (top reg, <[it := ref (resize (to_ptrdiff n) reg)]> regions).

Definition deallocate (p n : Z) (S_regions : list Region) : list Region :=
  match find_region_containing p S_regions with
  | None => S_regions
  | Some (it, reg) =>
      let reg := unref reg in
      let reg :=
        if unused reg then clear reg
        else if wrap64 (top reg - n) =? p
             then resize (to_ptrdiff (wrap64 (0 - n))) reg
             else reg in
      <[it := reg]> S_regions
  end.

Definition reallocate (allocate_memory : Z → Z) (p from_n to_n hint : Z)
    (S_regions : list Region) : Z * list Region :=
  if p =? nullptr then allocate allocate_memory to_n hint S_regions
  else
    match find_region_containing p S_regions with
    | None => (nullptr, S_regions)
    | Some (it, reg) =>
        if to_n =? 0 then (nullptr, deallocate p from_n S_regions)
        else
          let diff := to_ptrdiff (wrap64 (to_n - from_n)) in
          if (wrap64 (top reg - from_n) =? p)
             && (wrap64 (top reg + diff) <? end_ reg)
          then (p, <[it := resize diff reg]> S_regions)
          else if to_n <=? from_n then (p, S_regions)
          else
            let '(new_p, regions) :=
              allocate allocate_memory to_n hint S_regions in
            (new_p, deallocate p from_n regions)
    end.

Definition default_region_size : Z := S_capacity.

End VirtualMemory.

Import HeapDelegating.

(** ** The front end [arena::Allocator<T>]

    [sizeof_T] is [sizeof (T)]; the casts between [T *] and [char *] keep the
    address.  The products [n * sizeof (T)] are computed in [std::size_t]. *)

Section Allocator.
Variable sizeof_T : Z.

Definition Allocator_allocate (S_alloc_allocate : Z → Z) (n hint : Z)
    (S_regions : list Region) : Z * list Region :=
  if n =? 0 then (nullptr, S_regions)
  else allocate S_alloc_allocate (wrap64 (n * sizeof_T)) hint S_regions.

Definition Allocator_deallocate (p n : Z) (S_regions : list Region)
  : list Region :=
  if p =? nullptr then S_regions
  else deallocate p (wrap64 (n * sizeof_T)) S_regions.

Definition Allocator_reallocate (S_alloc_allocate : Z → Z)
    (p from_n to_n hint : Z) (S_regions : list Region)
  : Z * list Region :=
  reallocate S_alloc_allocate p (wrap64 (from_n * sizeof_T))
    (wrap64 (to_n * sizeof_T)) hint S_regions.
End Allocator.

(** ** Call sequences

    A call of the engine, and the run of a sequence of calls from a given
    registry.  Each call comes with the behaviour of the backing store at
    that moment; [Deallocate] returns nothing, recorded as [nullptr]. *)

Inductive call : Type :=
  | Allocate (n hint : Z)
  | Deallocate (p n : Z)
  | Reallocate (p from_n to_n hint : Z).

Definition perform (store : Z → Z) (c : call) (S_regions : list Region)
  : Z * list Region :=
  match c with
  | Allocate n hint => allocate store n hint S_regions
  | Deallocate p n => (nullptr, deallocate p n S_regions)
  | Reallocate p from_n to_n hint =>
      reallocate store p from_n to_n hint S_regions
  end.

Fixpoint run (calls : list ((Z → Z) * call)) (S_regions : list Region)
  : list Z * list Region :=
  match calls with
  | [] => ([], S_regions)
  | (store, c) :: calls' =>
      let '(r, regions) := perform store c S_regions in
      let '(rs, regions') := run calls' regions in
      (r :: rs, regions')
  end.

(** The same for the virtual-memory variant. *)
Definition vm_perform (store : Z → Z) (c : call)
    (S_regions : list VirtualMemory.Region) : Z * list VirtualMemory.Region :=
  match c with
  | Allocate n hint => VirtualMemory.allocate store n hint S_regions
  | Deallocate p n => (nullptr, VirtualMemory.deallocate p n S_regions)
  | Reallocate p from_n to_n hint =>
      VirtualMemory.reallocate store p from_n to_n hint S_regions
  end.

Fixpoint vm_run (calls : list ((Z → Z) * call))
    (S_regions : list VirtualMemory.Region)
  : list Z * list VirtualMemory.Region :=
  match calls with
  | [] => ([], S_regions)
  | (store, c) :: calls' =>
      let '(r, regions) := vm_perform store c S_regions in
      let '(rs, regions') := vm_run calls' regions in
      (r :: rs, regions')
  end.

(** A region of one variant read as a region of the other: same capacity,
    base, size and occupancy. *)
Definition vm_region (r : Region) : VirtualMemory.Region :=
  {| VirtualMemory.M_capacity := M_capacity r;
     VirtualMemory.M_data := M_data r;
     VirtualMemory.M_size := M_size r;
     VirtualMemory.M_ref_count := M_ref_count r |}.

(** ** Well-formed registries

    What the backing store guarantees and what the engine maintains, as far
    as the statements below need it.  Blocks handed out by the store are
    non-null, pairwise disjoint and lie below [addr_limit]; this bound and
    the bound [size_limit] on requests ([PTRDIFF_MAX], the largest object
    C++ supports) keep [top () + n] from wrapping around. *)

Definition addr_limit : Z := 2 ^ 63.
Definition size_limit : Z := 2 ^ 63.

(** Where the region lies and how far it is filled. *)
Definition layout_ok (r : Region) : Prop :=
  0 < M_data r ∧ S_capacity ≤ M_capacity r ∧
  0 ≤ M_size r ≤ M_capacity r ∧
  M_data r + M_capacity r ≤ addr_limit.

(** The occupancy counter is an [unsigned], and a region without occupants
    has been cleared. *)
Definition count_ok (r : Region) : Prop :=
  0 ≤ M_ref_count r < 2 ^ 32 ∧
  (M_ref_count r = 0 → M_size r = 0).

Definition region_ok (r : Region) : Prop := layout_ok r ∧ count_ok r.

(** The address ranges [data (), end ()) of two regions do not meet. *)
Definition apart (r1 r2 : Region) : Prop :=
  M_data r1 + M_capacity r1 ≤ M_data r2 ∨
  M_data r2 + M_capacity r2 ≤ M_data r1.

Fixpoint all_apart (rs : list Region) : Prop :=
  match rs with
  | [] => True
  | r :: rs' => Forall (apart r) rs' ∧ all_apart rs'
  end.

Definition registry_ok (rs : list Region) : Prop :=
  Forall region_ok rs ∧ all_apart rs.

(** The block [base, base + capacity) may be handed out next to [rs]. *)
Definition fresh_block (base capacity : Z) (rs : list Region) : Prop :=
  0 < base ∧ base + capacity ≤ addr_limit ∧
  Forall (λ r, base + capacity ≤ M_data r ∨
               M_data r + M_capacity r ≤ base) rs.

(** The store answers a request for the region that [allocate (n, _)] would
    construct with a fresh block. *)
Definition store_ok (store : Z → Z) (n : Z) (rs : list Region) : Prop :=
  fresh_block (store (Z.max S_capacity n)) (Z.max S_capacity n) rs.

Global Instance layout_ok_dec r : Decision (layout_ok r).
Proof. unfold layout_ok. apply _. Defined.

Global Instance count_ok_dec r : Decision (count_ok r).
Proof. unfold count_ok. apply _. Defined.

Global Instance region_ok_dec r : Decision (region_ok r).
Proof. unfold region_ok. apply _. Defined.

Global Instance apart_dec r1 r2 : Decision (apart r1 r2).
Proof. unfold apart. apply _. Defined.

Global Instance all_apart_dec rs : Decision (all_apart rs).
Proof. induction rs as [|r rs IH]; simpl; apply _. Defined.

Global Instance registry_ok_dec rs : Decision (registry_ok rs).
Proof. unfold registry_ok. apply _. Defined.

Global Instance fresh_block_dec base capacity rs :
  Decision (fresh_block base capacity rs).
Proof. unfold fresh_block. apply _. Defined.

Global Instance store_ok_dec store n rs : Decision (store_ok store n rs).
Proof. unfold store_ok. apply _. Defined.

(** Every occupancy counter can still take [k] increments. *)
Definition budget (k : Z) (rs : list Region) : Prop :=
  Forall (λ r, M_ref_count r + k < 2 ^ 32) rs.

(** A call whose sizes are [std::size_t] values, whose requested size is
    below [size_limit], and for which the store has a fresh block at hand. *)
Definition call_ok (store : Z → Z) (c : call) (rs : list Region) : Prop :=
  match c with
  | Allocate n hint => 0 ≤ n < size_limit ∧ store_ok store n rs
  | Deallocate p n => 0 ≤ n < 2 ^ 64
  | Reallocate p from_n to_n hint =>
      0 ≤ from_n < 2 ^ 64 ∧ 0 ≤ to_n < size_limit ∧ store_ok store to_n rs
  end.

Fixpoint calls_ok (calls : list ((Z → Z) * call)) (rs : list Region) : Prop :=
  match calls with
  | [] => True
  | (store, c) :: calls' =>
      call_ok store c rs ∧ calls_ok calls' (perform store c rs).2
  end.

Global Instance budget_dec k rs : Decision (budget k rs).
Proof. unfold budget. apply _. Defined.

Global Instance call_ok_dec store c rs : Decision (call_ok store c rs).
Proof. destruct c; simpl; apply _. Defined.

Global Instance calls_ok_dec calls rs : Decision (calls_ok calls rs).
Proof.
  revert rs. induction calls as [|[store c] calls IH]; intros rs; simpl;
    apply _.
Defined.

(** ** Allocate/free cycles

    Each cycle asks for [n] bytes (with some hint) and frees the block it was
    given with the same [n], before the next cycle starts. *)
Fixpoint churn (cycles : list ((Z → Z) * Z * Z)) (rs : list Region)
  : list Region :=
  match cycles with
  | [] => rs
  | (store, n, hint) :: cycles' =>
      let '(p, regions) := allocate store n hint rs in
      churn cycles' (deallocate p n regions)
  end.

(** The byte spans [p, p + n) and [q, q + m) meet. *)
Definition overlap (p n q m : Z) : bool := (p <? q + m) && (q <? p + n).

(** ** Live blocks

    The engine keeps no record of the blocks it has handed out.  To say that
    blocks do not overlap, a run is accompanied by the list of the blocks
    that are live: returned by a call and not yet given back. *)

Definition block : Type := Z * Z.

Definition disjoint_blocks (a b : block) : Prop :=
  overlap a.1 a.2 b.1 b.2 = false.

(** The block lies in the used part of the region. *)
Definition inside (reg : Region) (b : block) : Prop :=
  M_data reg ≤ b.1 ∧ b.1 + b.2 ≤ M_data reg + M_size reg.

(** The block starts in the address range of the region. *)
Definition within (reg : Region) (b : block) : Prop :=
  M_data reg ≤ b.1 < M_data reg + M_capacity reg.

Global Instance within_dec reg b : Decision (within reg b).
Proof. unfold within. apply _. Defined.

(** How many live blocks a region holds. *)
Definition occupants (reg : Region) (live : list block) : Z :=
  Z.of_nat (length (filter (within reg) live)).

(** Live blocks are non-empty and pairwise disjoint. *)
Definition blocks_ok (live : list block) : Prop :=
  NoDup live ∧ Forall (λ b, 0 < b.2) live ∧
  ∀ a b, a ∈ live → b ∈ live → a ≠ b → disjoint_blocks a b.

(** The registry and the live blocks fit together: the regions are laid out
    apart, every live block lies in the used part of a region, and every
    region counts as many occupants as it holds live blocks. *)
Definition ghost_ok (rs : list Region) (live : list block) : Prop :=
  Forall layout_ok rs ∧ all_apart rs ∧ blocks_ok live ∧
  Forall (λ b, ∃ it reg, rs !! it = Some reg ∧ inside reg b) live ∧
  Forall (λ reg, occupants reg live = M_ref_count reg) rs.

Definition heap_ok (rs : list Region) (live : list block) : Prop :=
  registry_ok rs ∧ ghost_ok rs live.

(** The live blocks after a call that returned [r]. *)
Definition live_step (c : call) (r : Z) (live : list block) : list block :=
  match c with
  | Allocate n _ => (r, n) :: live
  | Deallocate p n => filter (λ b, b ≠ (p, n)) live
  | Reallocate p from_n to_n _ =>
      if p =? nullptr then (r, to_n) :: live
      else if to_n =? 0 then filter (λ b, b ≠ (p, from_n)) live
      else (r, to_n) :: filter (λ b, b ≠ (p, from_n)) live
  end.

(** A call that respects the caller's obligations: a block that is given
    back or resized is live and comes with its size; no block of size 0 is
    asked for. *)
Definition call_wf (c : call) (live : list block) : Prop :=
  match c with
  | Allocate n _ => 0 < n
  | Deallocate p n => p = nullptr ∨ (p, n) ∈ live
  | Reallocate p from_n to_n _ =>
      if p =? nullptr then 0 < to_n else (p, from_n) ∈ live
  end.

Fixpoint live_after (calls : list ((Z → Z) * call)) (rs : list Region)
    (live : list block) : list block :=
  match calls with
  | [] => live
  | (store, c) :: calls' =>
      let '(r, regions) := perform store c rs in
      live_after calls' regions (live_step c r live)
  end.

Fixpoint trace_ok (calls : list ((Z → Z) * call)) (rs : list Region)
    (live : list block) : Prop :=
  match calls with
  | [] => True
  | (store, c) :: calls' =>
      call_ok store c rs ∧ call_wf c live ∧
      let '(r, regions) := perform store c rs in
      trace_ok calls' regions (live_step c r live)
  end.

Global Instance call_wf_dec c live : Decision (call_wf c live).
Proof.
  destruct c as [n hint|p n|p from_n to_n hint]; simpl; [apply _..|].
  destruct (p =? nullptr); apply _.
Defined.

Global Instance trace_ok_dec calls rs live : Decision (trace_ok calls rs live).
Proof.
  revert rs live.
  induction calls as [|[store c] calls IH]; intros rs live; simpl;
    [apply _|].
  destruct (perform store c rs) as [r regions]. apply _.
Defined.

(** ** Nested allocations

    Requests served in stack order: each block is given back, with its size,
    after everything allocated after it has been given back. *)
Fixpoint nest (requests : list ((Z → Z) * Z * Z)) (rs : list Region)
  : list Region :=
  match requests with
  | [] => rs
  | (store, n, hint) :: requests' =>
      let '(p, regions) := allocate store n hint rs in
      deallocate p n (nest requests' regions)
  end.

(** Every request of the nest is non-empty, below [size_limit], and finds the
    store ready with a fresh block. *)
Fixpoint nest_ok (requests : list ((Z → Z) * Z * Z)) (rs : list Region)
  : Prop :=
  match requests with
  | [] => True
  | (store, n, hint) :: requests' =>
      0 < n < size_limit ∧ store_ok store n rs ∧
      nest_ok requests' (allocate store n hint rs).2
  end.

Global Instance nest_ok_dec requests rs : Decision (nest_ok requests rs).
Proof.
  revert rs. induction requests as [|[[store n] hint] requests IH];
    intros rs; simpl; apply _.
Defined.

(** A region without content and without occupants. *)
Definition idle (r : Region) : Prop := M_size r = 0 ∧ M_ref_count r = 0.

Global Instance idle_dec r : Decision (idle r).
Proof. unfold idle. apply _. Defined.

(** ** Stack discipline

    Calls in which a block is given back, with its size, only when it is the
    most recently allocated block that is still live. *)

(** The bytes held by the live blocks. *)
Definition live_bytes (live : list block) : Z :=
  foldr (λ b s, b.2 + s) 0 live.

(** The obligations of one call: a request is non-empty and below
    [size_limit], with fewer than [2^32 - 1] blocks live; on the empty
    registry the store is ready with a fresh block, afterwards the live
    bytes together with the request stay below the capacity of the region;
    [deallocate] is given [nullptr] or the block on top of the stack. *)
Definition lifo_call (store : Z → Z) (c : call) (rs : list Region)
    (live : list block) : Prop :=
  match c with
  | Allocate n _ =>
      0 < n < size_limit ∧ Z.of_nat (length live) < 2 ^ 32 - 1 ∧
      match rs with
      | [] => store_ok store n []
      | _ => Forall (λ r, live_bytes live + n < M_capacity r) rs
      end
  | Deallocate p n => p = nullptr ∨ head live = Some (p, n)
  | Reallocate _ _ _ _ => False
  end.

Fixpoint lifo_ok (calls : list ((Z → Z) * call)) (rs : list Region)
    (live : list block) : Prop :=
  match calls with
  | [] => True
  | (store, c) :: calls' =>
      lifo_call store c rs live ∧
      let '(r, regions) := perform store c rs in
      lifo_ok calls' regions (live_step c r live)
  end.

Global Instance lifo_call_dec store c rs live :
  Decision (lifo_call store c rs live).
Proof.
  destruct c as [n hint|p n|p from_n to_n hint]; simpl; [|apply _..].
  destruct rs; apply _.
Defined.

Global Instance lifo_ok_dec calls rs live : Decision (lifo_ok calls rs live).
Proof.
  revert rs live.
  induction calls as [|[store c] calls IH]; intros rs live; simpl;
    [apply _|].
  destruct (perform store c rs) as [r regions]. apply _.
Defined.

(** The live blocks lie one after the other from address [d] on, the most
    recent one on top. *)
Fixpoint stacked (d : Z) (live : list block) : Prop :=
  match live with
  | [] => True
  | b :: below => b.1 = d + live_bytes below ∧ 0 < b.2 ∧ stacked d below
  end.

(** Under stack discipline the registry has at most one region, whose used
    part is exactly the stack of live blocks. *)
Definition lifo_inv (rs : list Region) (live : list block) : Prop :=
  match rs with
  | [] => live = []
  | [reg] =>
      layout_ok reg ∧ M_size reg = live_bytes live ∧
      M_ref_count reg = Z.of_nat (length live) ∧
      Z.of_nat (length live) < 2 ^ 32 ∧ stacked (M_data reg) live
  | _ => False
  end.

(** ** Sample stores and registries used in the examples *)

Definition store_at (base : Z) : Z → Z := λ _, base.

(** One region at [0x10000] holding one live block of [size] bytes. *)
Definition one_region (size : Z) : list Region :=
  [ {| M_capacity := 4096; M_data := 65536; M_size := size;
       M_ref_count := 1 |} ].

(** * Properties *)

(** ** Arithmetic of machine words *)

Lemma wrap64_small z : 0 ≤ z < 2 ^ 64 → wrap64 z = z.
Proof. intros H. unfold wrap64. by apply Z.mod_small. Qed.

Lemma wrap64_plus_period z : wrap64 (z + 2 ^ 64) = wrap64 z.
Proof.
  unfold wrap64. replace (z + 2 ^ 64) with (z + 1 * 2 ^ 64) by lia.
  apply Z_mod_plus_full.
Qed.

Lemma wrap64_minus_period z : wrap64 (z - 2 ^ 64) = wrap64 z.
Proof. rewrite <- (wrap64_plus_period (z - 2 ^ 64)). f_equal. lia. Qed.

Lemma wrap64_negative z : - 2 ^ 64 ≤ z < 0 → wrap64 z = z + 2 ^ 64.
Proof.
  intros H. rewrite <- wrap64_plus_period. apply wrap64_small. lia.
Qed.

Lemma wrap64_idemp_add a b : wrap64 (wrap64 a + b) = wrap64 (a + b).
Proof. unfold wrap64. apply Zplus_mod_idemp_l. Qed.

Lemma wrap32_small z : 0 ≤ z < 2 ^ 32 → wrap32 z = z.
Proof. intros H. unfold wrap32. by apply Z.mod_small. Qed.

(** Adding a size through a [std::ptrdiff_t] parameter is adding it. *)
Lemma add_to_ptrdiff s n : wrap64 (s + to_ptrdiff n) = wrap64 (s + n).
Proof.
  unfold to_ptrdiff. destruct (n <? 2 ^ 63); [done|].
  replace (s + (n - 2 ^ 64)) with (s + n - 2 ^ 64) by lia.
  apply wrap64_minus_period.
Qed.

Lemma shrink_by n s : 0 ≤ n ≤ s → s < 2 ^ 64 →
  wrap64 (s + to_ptrdiff (wrap64 (0 - n))) = s - n.
Proof.
  intros Hn Hs. rewrite add_to_ptrdiff.
  unfold wrap64. rewrite Zplus_mod_idemp_r.
  replace (s + (0 - n)) with (s - n) by lia. apply Z.mod_small. lia.
Qed.

(** ** The search loop *)

Lemma scan_Some {A} (P : A → bool) (k : nat) (l : list A) i x :
  scan P k l = Some (i, x) →
  (k ≤ i)%nat ∧ l !! (i - k)%nat = Some x ∧ P x = true ∧
  ∀ j y, (j < i - k)%nat → l !! j = Some y → P y = false.
Proof.
  revert k. induction l as [|a l IH]; intros k; simpl; [done|].
  destruct (P a) eqn:Ha.
  - intros [= <- <-]. rewrite Nat.sub_diag. split_and!; [lia|done|done|lia].
  - intros H. apply IH in H as (Hle & Hl & HP & Hbefore).
    replace (i - k)%nat with (S (i - S k)) by lia.
    split_and!; [lia|done|done|].
    intros [|j] y Hj; simpl; [by intros [= <-]|].
    apply Hbefore. lia.
Qed.

Lemma scan_None {A} (P : A → bool) (k : nat) (l : list A) :
  scan P k l = None ↔ Forall (λ x, P x = false) l.
Proof.
  revert k. induction l as [|a l IH]; intros k; simpl.
  - split; [by constructor|done].
  - destruct (P a) eqn:Ha.
    + split; [done|]. intros H. apply Forall_cons in H as [H _]. congruence.
    + rewrite IH. split; [by constructor|]. by intros [_ ?]%Forall_cons.
Qed.

Lemma scan_first {A} (P : A → bool) (k : nat) (l : list A) i x :
  l !! i = Some x → P x = true →
  (∀ j y, (j < i)%nat → l !! j = Some y → P y = false) →
  scan P k l = Some ((k + i)%nat, x).
Proof.
  revert k i. induction l as [|a l IH]; intros k i; [done|].
  destruct i as [|i]; simpl.
  - intros [= ->] -> _. by rewrite Nat.add_0_r.
  - intros Hl HP Hbefore.
    rewrite (Hbefore 0%nat a) by (done || lia).
    rewrite (IH (S k) i) by (try done; intros j y ?; apply (Hbefore (S j)); lia).
    do 2 f_equal. lia.
Qed.

Lemma scan_fmap {A B} (f : A → B) (P : B → bool) (k : nat) (l : list A) :
  scan P k (f <$> l) = prod_map id f <$> scan (P ∘ f) k l.
Proof.
  revert k. induction l as [|a l IH]; intros k; simpl; [done|].
  by destruct (P (f a)).
Qed.

(** A search through the registry returns a valid iterator. *)
Lemma find_region_containing_Some p rs it reg :
  find_region_containing p rs = Some (it, reg) →
  rs !! it = Some reg ∧ contains p reg = true ∧
  ∀ j r, (j < it)%nat → rs !! j = Some r → contains p r = false.
Proof.
  intros (_ & Hl & HP & Hb)%scan_Some. rewrite Nat.sub_0_r in Hl, Hb. auto.
Qed.

Lemma find_region_containing_None p rs :
  find_region_containing p rs = None ↔ Forall (λ r, contains p r = false) rs.
Proof. apply scan_None. Qed.

Lemma find_region_fitting_Some n hint rs it reg :
  find_region_fitting n hint rs = Some (it, reg) →
  rs !! it = Some reg ∧ fits n reg = true.
Proof.
  unfold find_region_fitting.
  assert (scan (fits n) 0 rs = Some (it, reg) →
          rs !! it = Some reg ∧ fits n reg = true) as Hscan.
  { intros (_ & Hl & HP & _)%scan_Some. by rewrite Nat.sub_0_r in Hl. }
  destruct (hint =? nullptr); [done|].
  destruct (find_region_containing hint rs) as [[j r]|] eqn:Hc; [|done].
  destruct (fits n r) eqn:Hf; [|done].
  intros [= -> ->]. by apply find_region_containing_Some in Hc as (? & _).
Qed.

Lemma find_region_fitting_None n hint rs :
  find_region_fitting n hint rs = None ↔ Forall (λ r, fits n r = false) rs.
Proof.
  unfold find_region_fitting. rewrite <- (scan_None (fits n) 0).
  destruct (hint =? nullptr); [done|].
  destruct (find_region_containing hint rs) as [[j r]|] eqn:Hc; [|done].
  destruct (fits n r) eqn:Hf; [|done].
  split; [done|]. intros Hn. apply scan_None in Hn.
  apply find_region_containing_Some in Hc as (Hl & _).
  rewrite Forall_lookup in Hn. specialize (Hn _ _ Hl). congruence.
Qed.

(** With a single region that passes the test, the search ends there,
    whatever the hint. *)
Lemma find_region_fitting_single n hint r :
  fits n r = true → find_region_fitting n hint [r] = Some (0%nat, r).
Proof.
  intros Hfits. unfold find_region_fitting, find_region_containing. simpl.
  rewrite Hfits. destruct (hint =? nullptr); [done|].
  destruct (contains hint r); simpl; by rewrite ?Hfits.
Qed.

Lemma contains_spec p r :
  contains p r = true ↔ data r ≤ p < top r.
Proof. unfold contains. rewrite andb_true_iff, Z.leb_le, Z.ltb_lt. done. Qed.

Lemma contains_false p r :
  contains p r = false ↔ ¬ (data r ≤ p < top r).
Proof. rewrite <- contains_spec. by destruct (contains p r). Qed.

(** ** Regions of a well-formed registry: no wrap-around *)

Lemma top_ok r : layout_ok r → top r = M_data r + M_size r.
Proof.
  unfold layout_ok, addr_limit, top. intros (? & ? & ? & ?).
  apply wrap64_small. lia.
Qed.

Lemma end_ok r : layout_ok r → end_ r = M_data r + M_capacity r.
Proof.
  unfold layout_ok, addr_limit, end_, S_capacity. intros (? & ? & ? & ?).
  apply wrap64_small. lia.
Qed.

Lemma fits_ok n r :
  layout_ok r → 0 ≤ n < size_limit →
  fits n r = true ↔ M_size r + n < M_capacity r.
Proof.
  intros Hr Hn. unfold fits. rewrite top_ok, end_ok by done.
  destruct Hr as (? & ? & ? & ?). unfold addr_limit, size_limit in *.
  rewrite wrap64_small by lia. rewrite Z.ltb_lt. lia.
Qed.

(** A region with exactly [n] bytes left fails the test [top () + n < end ()],
    whatever its address. *)
Lemma fits_exact n r : M_capacity r - M_size r = n → fits n r = false.
Proof.
  intros Hn. unfold fits, top, end_. rewrite wrap64_idemp_add.
  replace (M_data r + M_size r + n) with (M_data r + M_capacity r) by lia.
  apply Z.ltb_irrefl.
Qed.

Lemma contains_ok p r :
  layout_ok r → contains p r = true ↔ M_data r ≤ p < M_data r + M_size r.
Proof. intros Hr. rewrite contains_spec, top_ok by done. done. Qed.

(** The test [top () - n == p] on a block of a well-formed region is the
    plain equation, and then the block is the last [n] bytes below the top. *)
Lemma top_block_test p n r :
  layout_ok r → 0 ≤ n < 2 ^ 64 → M_data r ≤ p < M_data r + M_size r →
  (wrap64 (top r - n) =? p) = (top r - n =? p).
Proof.
  intros Hr Hn Hp. rewrite top_ok by done.
  destruct Hr as (? & ? & ? & ?). unfold addr_limit in *.
  destruct (decide (n ≤ M_data r + M_size r)).
  - rewrite wrap64_small by lia. done.
  - rewrite wrap64_negative by lia.
    rewrite (proj2 (Z.eqb_neq _ _)) by lia.
    rewrite (proj2 (Z.eqb_neq _ _)) by lia. done.
Qed.

Lemma resize_grow n r :
  layout_ok r → 0 ≤ n < size_limit → M_size r + n ≤ M_capacity r →
  M_size (resize (to_ptrdiff n) r) = M_size r + n.
Proof.
  intros (? & ? & ? & ?) Hn Hroom. simpl. rewrite add_to_ptrdiff.
  unfold addr_limit, size_limit in *. apply wrap64_small. lia.
Qed.

(** The region an allocation of [n] bytes leaves behind. *)
Lemma grown_region n r :
  layout_ok r → 0 ≤ n < size_limit → M_size r + n ≤ M_capacity r →
  0 ≤ M_ref_count r < 2 ^ 32 - 1 →
  ref (resize (to_ptrdiff n) r) =
    {| M_capacity := M_capacity r; M_data := M_data r;
       M_size := M_size r + n; M_ref_count := M_ref_count r + 1 |} ∧
  region_ok (ref (resize (to_ptrdiff n) r)).
Proof.
  intros Hlay Hn Hroom Hrc.
  assert (ref (resize (to_ptrdiff n) r) =
    {| M_capacity := M_capacity r; M_data := M_data r;
       M_size := M_size r + n; M_ref_count := M_ref_count r + 1 |}) as ->.
  { unfold ref. f_equal.
    - by apply resize_grow.
    - simpl. apply wrap32_small. lia. }
  split; [done|]. destruct Hlay as (? & ? & ? & ?).
  split; [unfold layout_ok|unfold count_ok]; simpl; lia.
Qed.

(** The in-place test of [reallocate] on a block of a well-formed region:
    the block is the last one below the top, the resized block ends before
    [end ()], and the new size counts up to the end of the resized block. *)
Lemma in_place_test p from_n to_n reg :
  layout_ok reg → 0 ≤ from_n < 2 ^ 64 → 0 ≤ to_n < size_limit →
  M_data reg ≤ p < M_data reg + M_size reg →
  let diff := to_ptrdiff (wrap64 (to_n - from_n)) in
  (wrap64 (top reg - from_n) =? p) && (wrap64 (top reg + diff) <? end_ reg)
  = true →
  top reg - from_n = p ∧
  p + to_n < M_data reg + M_capacity reg ∧
  M_size (resize diff reg) = p - M_data reg + to_n.
Proof.
  intros Hlay Hfrom Hto Hp diff [Htop Hend]%andb_true_iff.
  rewrite top_block_test in Htop by done. apply Z.eqb_eq in Htop.
  apply Z.ltb_lt in Hend.
  assert (∀ s, wrap64 (s + diff) = wrap64 (s + to_n - from_n)) as Hdiff.
  { intros s. unfold diff. rewrite add_to_ptrdiff.
    unfold wrap64. rewrite Zplus_mod_idemp_r. f_equal. lia. }
  rewrite Hdiff, end_ok in Hend by done. rewrite top_ok in Htop, Hend by done.
  pose proof Hlay as (? & ? & ? & ?). unfold addr_limit, size_limit in *.
  replace (M_data reg + M_size reg + to_n - from_n) with (p + to_n) in Hend
    by lia.
  rewrite wrap64_small in Hend by lia.
  split_and!; [by rewrite top_ok|done|].
  simpl. rewrite Hdiff.
  replace (M_size reg + to_n - from_n) with (p - M_data reg + to_n) by lia.
  apply wrap64_small. lia.
Qed.

(** ** Disjoint regions: a pointer has one owner *)

Lemma all_apart_lookup rs :
  all_apart rs ↔
  ∀ i j ri rj, (i < j)%nat → rs !! i = Some ri → rs !! j = Some rj →
               apart ri rj.
Proof.
  induction rs as [|r rs IH]; simpl.
  - split; [intros _ i j ri rj _ Hi; done|done].
  - rewrite IH. split.
    + intros [Hr Hrs] [|i] [|j] ri rj Hij; simpl; try lia.
      * intros [= <-] Hj. rewrite Forall_lookup in Hr. by eapply Hr.
      * apply Hrs. lia.
    + intros H. split.
      * apply Forall_lookup. intros j rj Hj.
        apply (H 0%nat (S j) r rj); [lia|done|done].
      * intros i j ri rj Hij Hi Hj.
        apply (H (S i) (S j)); [lia|done|done].
Qed.

Lemma apart_sym r1 r2 : apart r1 r2 → apart r2 r1.
Proof. unfold apart. lia. Qed.

Lemma all_apart_distinct rs i j ri rj :
  all_apart rs → i ≠ j → rs !! i = Some ri → rs !! j = Some rj → apart ri rj.
Proof.
  intros Hrs Hij Hi Hj. rewrite all_apart_lookup in Hrs.
  destruct (decide (i < j)%nat).
  - by apply (Hrs i j).
  - apply apart_sym. apply (Hrs j i); [lia|done|done].
Qed.

(** Replacing a region by one at the same place keeps the regions apart. *)
Lemma all_apart_insert rs it reg reg' :
  all_apart rs → rs !! it = Some reg →
  M_data reg' = M_data reg → M_capacity reg' = M_capacity reg →
  all_apart (<[it := reg']> rs).
Proof.
  intros Hrs Hl Hd Hc. apply all_apart_lookup. intros i j ri rj Hij Hi Hj.
  assert (∀ k rk, <[it := reg']> rs !! k = Some rk →
            ∃ rk', rs !! k = Some rk' ∧ M_data rk = M_data rk' ∧
                   M_capacity rk = M_capacity rk') as Hsame.
  { intros k rk Hk. destruct (decide (k = it)) as [->|Hne].
    - rewrite list_lookup_insert_eq in Hk by (by eapply lookup_lt_Some).
      injection Hk as <-. eauto.
    - rewrite list_lookup_insert_ne in Hk by done. eauto. }
  destruct (Hsame _ _ Hi) as (ri' & Hi' & Hdi & Hci).
  destruct (Hsame _ _ Hj) as (rj' & Hj' & Hdj & Hcj).
  assert (apart ri' rj') as Hap.
  { apply (all_apart_distinct rs i j); [done|lia|done|done]. }
  unfold apart in *. lia.
Qed.

Lemma all_apart_snoc rs r :
  all_apart rs → Forall (λ x, apart x r) rs → all_apart (rs ++ [r]).
Proof.
  intros Hrs Hr. apply all_apart_lookup. intros i j ri rj Hij Hi Hj.
  assert (i < length rs)%nat as Hlen.
  { apply lookup_lt_Some in Hj. rewrite length_app in Hj. simpl in Hj. lia. }
  rewrite lookup_app_l in Hi by done.
  destruct (decide (j < length rs)%nat).
  - rewrite lookup_app_l in Hj by done.
    apply (all_apart_distinct rs i j); [done|lia|done|done].
  - rewrite lookup_app_r in Hj by lia.
    apply list_lookup_singleton_Some in Hj as [_ <-].
    rewrite Forall_lookup in Hr. by eapply Hr.
Qed.

(** In a registry of disjoint regions the search for the owner of an address
    inside the used part of a region finds that region. *)
Lemma find_region_containing_owner q rs it reg :
  Forall layout_ok rs → all_apart rs →
  rs !! it = Some reg → M_data reg ≤ q < M_data reg + M_size reg →
  find_region_containing q rs = Some (it, reg).
Proof.
  intros Hlay Hap Hl Hq. apply (scan_first _ 0%nat); [done| |].
  - rewrite contains_ok; [done|]. rewrite Forall_lookup in Hlay. by eapply Hlay.
  - intros j r Hj Hr. apply contains_false. rewrite <- contains_spec.
    rewrite Forall_lookup in Hlay.
    rewrite contains_ok by (by eapply Hlay). intros Hin.
    assert (apart r reg) as Hapart.
    { apply (all_apart_distinct rs j it); [done|lia|done|done]. }
    destruct (Hlay _ _ Hr) as (_ & _ & ? & _).
    destruct (Hlay _ _ Hl) as (_ & _ & ? & _).
    unfold apart in Hapart. lia.
Qed.

Lemma null_not_contained rs :
  Forall region_ok rs → find_region_containing nullptr rs = None.
Proof.
  intros Hrs. apply find_region_containing_None.
  eapply Forall_impl; [exact Hrs|]. intros r Hr.
  apply contains_false. unfold data, nullptr. destruct Hr as ((? & _) & _). lia.
Qed.

(** ** What a call does to the registry *)

Lemma allocate_found store n hint rs it reg :
  find_region_fitting n hint rs = Some (it, reg) →
  allocate store n hint rs =
    (top reg, <[it := ref (resize (to_ptrdiff n) reg)]> rs).
Proof. unfold allocate. by intros ->. Qed.

Lemma allocate_new store n hint rs :
  find_region_fitting n hint rs = None →
  allocate store n hint rs =
    (top (Region_new store n),
     rs ++ [ref (resize (to_ptrdiff n) (Region_new store n))]).
Proof.
  unfold allocate. intros ->. f_equal.
  replace (length rs) with (length rs + 0)%nat by lia.
  by rewrite insert_app_r.
Qed.

Lemma ref_changes r : 0 ≤ M_ref_count r < 2 ^ 32 → ∀ d, ref (resize d r) ≠ r.
Proof.
  intros Hrc d Heq. apply (f_equal M_ref_count) in Heq. simpl in Heq.
  destruct (decide (M_ref_count r + 1 < 2 ^ 32)).
  - rewrite wrap32_small in Heq by lia. lia.
  - replace (M_ref_count r + 1) with (2 ^ 32) in Heq by lia.
    change (wrap32 (2 ^ 32)) with 0 in Heq. lia.
Qed.

Lemma deallocate_not_contained p n rs :
  find_region_containing p rs = None → deallocate p n rs = rs.
Proof. unfold deallocate. by intros ->. Qed.

(** What [deallocate] does to the region that owns [p]. *)
Lemma deallocate_owned p n rs it reg :
  region_ok reg → 0 ≤ n < 2 ^ 64 →
  find_region_containing p rs = Some (it, reg) →
  0 < M_ref_count reg ∧
  deallocate p n rs =
    <[it := {| M_capacity := M_capacity reg;
               M_data := M_data reg;
               M_size := if M_ref_count reg - 1 =? 0 then 0
                         else if top reg - n =? p then M_size reg - n
                         else M_size reg;
               M_ref_count := M_ref_count reg - 1 |}]> rs.
Proof.
  intros [Hlay Hcnt] Hn Hfind.
  pose proof Hfind as (Hl & Hc & _)%find_region_containing_Some.
  pose proof Hc as Hp. rewrite contains_ok in Hp by done.
  pose proof Hlay as (Hd & Hcap & Hsz & Hlim).
  pose proof Hcnt as (Hrc & Hzero).
  assert (0 < M_ref_count reg) as Hpos by lia.
  split; [done|].
  unfold deallocate. rewrite Hfind. f_equal.
  change (top (unref reg)) with (top reg).
  unfold unused, unref; simpl. rewrite wrap32_small by lia.
  destruct (M_ref_count reg - 1 =? 0) eqn:E; [done|].
  rewrite top_block_test by done.
  destruct (top reg - n =? p) eqn:Et; [|done].
  unfold resize; simpl. f_equal.
  apply Z.eqb_eq in Et. rewrite top_ok in Et by done.
  unfold addr_limit in *. apply shrink_by; lia.
Qed.

Lemma reallocate_to_zero store p from_n hint rs :
  p ≠ nullptr →
  reallocate store p from_n 0 hint rs = (nullptr, deallocate p from_n rs).
Proof.
  intros Hp. unfold reallocate.
  destruct (p =? nullptr) eqn:E; [by apply Z.eqb_eq in E|].
  destruct (find_region_containing p rs) as [[it reg]|] eqn:Hc; [done|].
  by rewrite deallocate_not_contained.
Qed.

Lemma run_step store c calls rs :
  run ((store, c) :: calls) rs =
  ((perform store c rs).1 :: (run calls (perform store c rs).2).1,
   (run calls (perform store c rs).2).2).
Proof.
  simpl. destruct (perform store c rs) as [r regions]. simpl.
  by destruct (run calls regions).
Qed.

(** ** The registry stays well formed

    As long as the requested sizes stay below [size_limit] and no occupancy
    counter wraps, every call keeps the regions disjoint and each region's
    size between 0 and its capacity. *)

Lemma registry_ok_lookup rs it reg :
  registry_ok rs → rs !! it = Some reg → region_ok reg.
Proof. intros [Hrs _] Hl. rewrite Forall_lookup in Hrs. by eapply Hrs. Qed.

(** The facts about a region found in a well-formed registry: its layout,
    the range of its occupancy counter, and that it is cleared when idle. *)
Ltac region_facts Hrs Hl :=
  let Hlay := fresh "Hlay" in
  let Hrc := fresh "Hrc" in
  let Hzero := fresh "Hzero" in
  destruct (registry_ok_lookup _ _ _ Hrs Hl) as [Hlay [Hrc Hzero]].

Lemma registry_ok_layout rs : registry_ok rs → Forall layout_ok rs.
Proof. intros [Hrs _]. eapply Forall_impl; [exact Hrs|]. by intros r [? _]. Qed.

Lemma registry_ok_insert rs it reg reg' :
  registry_ok rs → rs !! it = Some reg → region_ok reg' →
  M_data reg' = M_data reg → M_capacity reg' = M_capacity reg →
  registry_ok (<[it := reg']> rs).
Proof.
  intros [Hrs Hap] Hl Hreg' Hd Hc. split.
  - by apply Forall_insert.
  - by apply (all_apart_insert rs it reg).
Qed.

Lemma budget_lookup k rs it reg :
  budget k rs → rs !! it = Some reg → M_ref_count reg + k < 2 ^ 32.
Proof. unfold budget. rewrite Forall_lookup. intros H Hl. by eapply H. Qed.

Lemma budget_weaken k k' rs : k' ≤ k → budget k rs → budget k' rs.
Proof.
  intros Hk Hb. eapply Forall_impl; [exact Hb|]. intros r. simpl. lia.
Qed.

Lemma budget_insert k rs it reg reg' :
  budget (k + 1) rs → rs !! it = Some reg →
  M_ref_count reg' ≤ M_ref_count reg + 1 →
  budget k (<[it := reg']> rs).
Proof.
  intros Hb Hl Hrc. apply Forall_insert.
  - by apply (budget_weaken (k + 1)); [lia|].
  - pose proof (budget_lookup _ _ _ _ Hb Hl). lia.
Qed.

Lemma budget_zero rs : registry_ok rs → budget 0 rs.
Proof.
  intros [Hrs _]. eapply Forall_impl; [exact Hrs|].
  intros r [_ [Hrc _]]. simpl. lia.
Qed.

Lemma allocate_ok k store n hint rs :
  registry_ok rs → 0 ≤ k < 2 ^ 32 - 1 → budget (k + 1) rs →
  0 ≤ n < size_limit → store_ok store n rs →
  registry_ok (allocate store n hint rs).2 ∧
  budget k (allocate store n hint rs).2.
Proof.
  intros Hrs Hk Hb Hn Hstore.
  destruct (find_region_fitting n hint rs) as [[it reg]|] eqn:Hfit.
  - rewrite (allocate_found _ _ _ _ _ _ Hfit). simpl.
    apply find_region_fitting_Some in Hfit as (Hl & Hfits).
    region_facts Hrs Hl.
    pose proof (budget_lookup _ _ _ _ Hb Hl) as Hroom.
    apply fits_ok in Hfits; [|done|done].
    assert (M_size (ref (resize (to_ptrdiff n) reg)) = M_size reg + n)
      as Hsize by (apply resize_grow; [done|done|lia]).
    assert (M_ref_count (ref (resize (to_ptrdiff n) reg))
            = M_ref_count reg + 1) as Hcount.
    { simpl. apply wrap32_small. lia. }
    split.
    + apply (registry_ok_insert rs it reg); [done|done| |done|done].
      destruct Hlay as (? & ? & ? & ?). split.
      * unfold layout_ok. rewrite Hsize. simpl. lia.
      * unfold count_ok. rewrite Hcount. lia.
    + apply (budget_insert k rs it reg); [done|done|lia].
  - rewrite (allocate_new _ _ _ _ Hfit). simpl.
    destruct Hstore as (Hbase & Hlimit & Hfresh).
    set (capacity := Z.max S_capacity n) in *.
    assert (S_capacity ≤ capacity ∧ n ≤ capacity) as [Hc1 Hc2]
      by (unfold capacity; lia).
    set (new := ref (resize (to_ptrdiff n) (Region_new store n))).
    assert (M_data new = store capacity) as Hd by done.
    assert (M_capacity new = capacity) as Hc by done.
    assert (M_ref_count new = 1) as Hcount by done.
    assert (M_size new = n) as Hsize.
    { simpl. rewrite add_to_ptrdiff. unfold size_limit in Hn.
      apply wrap64_small. lia. }
    clearbody new.
    destruct Hrs as [Hrs Hap]. split; [split|].
    + apply Forall_app. split; [done|]. apply Forall_singleton.
      split.
      * unfold layout_ok. rewrite Hd, Hc, Hsize. lia.
      * unfold count_ok. rewrite Hcount. lia.
    + apply all_apart_snoc; [done|].
      eapply Forall_impl; [exact Hfresh|]. intros r Hr. simpl in Hr.
      unfold apart. rewrite Hd, Hc. lia.
    + apply Forall_app. split; [by apply (budget_weaken (k + 1)); [lia|]|].
      apply Forall_singleton. rewrite Hcount. lia.
Qed.

(** The shape of every allocation in a well-formed registry: a region of the
    registry, or a new one appended to it, with room for [n] bytes, gives its
    top and grows by [n]. *)
Lemma allocate_shape store n hint rs :
  registry_ok rs → budget 1 rs → 0 ≤ n < size_limit → store_ok store n rs →
  ∃ it reg regions,
    (regions = rs ∨ (regions = rs ++ [reg] ∧ M_ref_count reg = 0)) ∧
    registry_ok regions ∧ regions !! it = Some reg ∧
    M_size reg + n ≤ M_capacity reg ∧ M_ref_count reg < 2 ^ 32 - 1 ∧
    allocate store n hint rs =
      (M_data reg + M_size reg,
       <[it := {| M_capacity := M_capacity reg; M_data := M_data reg;
                  M_size := M_size reg + n;
                  M_ref_count := M_ref_count reg + 1 |}]> regions).
Proof.
  intros Hrs Hb Hn Hstore.
  destruct (find_region_fitting n hint rs) as [[it reg]|] eqn:Hfit.
  - rewrite (allocate_found _ _ _ _ _ _ Hfit).
    apply find_region_fitting_Some in Hfit as (Hl & Hfits).
    region_facts Hrs Hl.
    pose proof (budget_lookup _ _ _ _ Hb Hl) as Hroom.
    apply fits_ok in Hfits; [|done|done].
    destruct (grown_region n reg) as [-> _]; [done|done|lia|lia|].
    rewrite top_ok by done.
    exists it, reg, rs. split_and!; [by left|done|done|lia|lia|done].
  - rewrite (allocate_new _ _ _ _ Hfit).
    destruct Hstore as (Hbase & Hlimit & Hfresh).
    set (reg := Region_new store n).
    assert (layout_ok reg) as Hlay.
    { unfold layout_ok, reg, Region_new. simpl. lia. }
    assert (region_ok reg) as Hreg.
    { split; [done|]. unfold count_ok. simpl. lia. }
    destruct (grown_region n reg) as [-> _];
      [done|done|simpl; lia|simpl; lia|].
    rewrite top_ok by done.
    exists (length rs), reg, (rs ++ [reg]).
    split_and!; [by right| | |simpl; lia|simpl; lia|].
    + destruct Hrs as [Hrs Hap]. split.
      * apply Forall_app. split; [done|]. by apply Forall_singleton.
      * apply all_apart_snoc; [done|].
        eapply Forall_impl; [exact Hfresh|]. intros r Hr. simpl in Hr.
        unfold apart. simpl. lia.
    + by apply list_lookup_middle.
    + f_equal. replace (length rs) with (length rs + 0)%nat by lia.
      by rewrite insert_app_r.
Qed.

Lemma deallocate_ok k p n rs :
  registry_ok rs → budget k rs → 0 ≤ n < 2 ^ 64 →
  registry_ok (deallocate p n rs) ∧ budget k (deallocate p n rs).
Proof.
  intros Hrs Hb Hn.
  destruct (find_region_containing p rs) as [[it reg]|] eqn:Hfind;
    [|by rewrite deallocate_not_contained].
  pose proof Hfind as (Hl & Hc & _)%find_region_containing_Some.
  pose proof (registry_ok_lookup _ _ _ Hrs Hl) as Hreg.
  destruct (deallocate_owned p n rs it reg Hreg Hn Hfind) as [Hpos ->].
  destruct Hreg as [Hlay [Hrc Hzero]].
  rewrite contains_ok in Hc by done.
  pose proof Hlay as (? & ? & ? & ?).
  split.
  - apply (registry_ok_insert rs it reg); [done|done| |done|done].
    split.
    + unfold layout_ok. simpl. split_and!; try lia;
        destruct (M_ref_count reg - 1 =? 0); try lia;
        rewrite top_ok by done;
        destruct (M_data reg + M_size reg - n =? p) eqn:E; try lia;
        apply Z.eqb_eq in E; lia.
    + unfold count_ok. simpl. split; [lia|]. intros ->. done.
  - apply Forall_insert; [done|]. simpl.
    pose proof (budget_lookup _ _ _ _ Hb Hl). lia.
Qed.

Lemma reallocate_ok k store p from_n to_n hint rs :
  registry_ok rs → 0 ≤ k < 2 ^ 32 - 1 → budget (k + 1) rs →
  0 ≤ from_n < 2 ^ 64 → 0 ≤ to_n < size_limit → store_ok store to_n rs →
  registry_ok (reallocate store p from_n to_n hint rs).2 ∧
  budget k (reallocate store p from_n to_n hint rs).2.
Proof.
  intros Hrs Hk Hb Hfrom Hto Hstore. unfold reallocate.
  assert (budget k rs) as Hb' by (apply (budget_weaken (k + 1)); [lia|done]).
  destruct (p =? nullptr); [by apply allocate_ok|].
  destruct (find_region_containing p rs) as [[it reg]|] eqn:Hfind; [|done].
  destruct (to_n =? 0); [by apply deallocate_ok|].
  pose proof Hfind as (Hl & Hc & _)%find_region_containing_Some.
  region_facts Hrs Hl.
  rewrite contains_ok in Hc by done.
  destruct (_ && _) eqn:Hplace.
  - apply in_place_test in Hplace as (Htop & Hend & Hsize); [|done..].
    pose proof Hlay as (? & ? & ? & ?). simpl. split.
    + apply (registry_ok_insert rs it reg); [done|done| |done|done].
      split.
      * unfold layout_ok. rewrite Hsize. simpl. lia.
      * unfold count_ok. simpl. split; [done|]. intros ?. lia.
    + apply (budget_insert k rs it reg); [done|done|simpl; lia].
  - destruct (to_n <=? from_n); [done|].
    pose proof (allocate_ok k store to_n hint rs Hrs Hk Hb Hto Hstore)
      as [Hrs1 Hb1].
    destruct (allocate store to_n hint rs) as [new_p regions]. simpl in *.
    by apply deallocate_ok.
Qed.

Lemma perform_ok k store c rs :
  registry_ok rs → 0 ≤ k < 2 ^ 32 - 1 → budget (k + 1) rs →
  call_ok store c rs →
  registry_ok (perform store c rs).2 ∧ budget k (perform store c rs).2.
Proof.
  intros Hrs Hk Hb Hc. destruct c as [n hint|p n|p from_n to_n hint]; simpl.
  - destruct Hc. by apply allocate_ok.
  - apply deallocate_ok; [done| |done].
    apply (budget_weaken (k + 1)); [lia|done].
  - destruct Hc as (? & ? & ?). by apply reallocate_ok.
Qed.

(** X13.  A run of fewer than [2^32] calls with sizes below [size_limit],
    served by a store that hands out fresh blocks, keeps the registry well
    formed, whatever pointers the calls pass (foreign ones, freed ones):
    regions disjoint, each with [0 ≤ size ≤ capacity] and an occupancy that
    is 0 only for a cleared region. *)
Lemma run_ok calls rs :
  registry_ok rs → budget (Z.of_nat (length calls)) rs →
  Z.of_nat (length calls) < 2 ^ 32 →
  calls_ok calls rs → registry_ok (run calls rs).2.
Proof.
  revert rs. induction calls as [|[store c] calls IH]; intros rs Hrs Hb Hlen;
    [done|].
  intros [Hc Hcs]. rewrite run_step. simpl.
  simpl length in Hb, Hlen. rewrite Nat2Z.inj_succ in Hb, Hlen.
  destruct (perform_ok (Z.of_nat (length calls)) store c rs) as [Hrs1 Hb1];
    [done|lia|by replace (Z.of_nat (length calls) + 1)
                    with (Z.succ (Z.of_nat (length calls))) by lia|done|].
  apply IH; [done|done|lia|done].
Qed.

(** ** The fit search *)

(** The two tests of the search, on the fields of a region: the sums are
    those of [top ()] and [end ()], taken in 64 bits. *)
Lemma contains_fields p r :
  contains p r = true ↔ M_data r ≤ p < (M_data r + M_size r) mod 2 ^ 64.
Proof. by rewrite contains_spec. Qed.

Lemma fits_fields n r :
  fits n r = true ↔
  (M_data r + M_size r + n) mod 2 ^ 64 < (M_data r + M_capacity r) mod 2 ^ 64.
Proof.
  unfold fits, top, end_. rewrite wrap64_idemp_add. unfold wrap64.
  apply Z.ltb_lt.
Qed.

Lemma fits_fields_false n r :
  fits n r = false ↔
  ¬ (M_data r + M_size r + n) mod 2 ^ 64 < (M_data r + M_capacity r) mod 2 ^ 64.
Proof.
  rewrite <- fits_fields. by destruct (fits n r).
Qed.

(** C7.  The code at a failing input.  [allocate (4096)] on the empty engine
    leaves a region that is full, [M_size = M_capacity]; for [n = 2^64 - 1]
    the sum [top () + n] wraps around to [top () - 1], the strict test
    passes and the search selects the full region, with or without a hint:
    the region has no byte left, let alone [n] bytes and one to spare. *)
Theorem full_region_selected_for_huge_request :
  let full := {| M_capacity := 4096; M_data := 65536; M_size := 4096;
                 M_ref_count := 1 |} in
  (run [ (store_at 65536, Allocate 4096 nullptr) ] []).2 = [full] ∧
  M_capacity full - M_size full = 0 ∧
  find_region_fitting (2 ^ 64 - 1) nullptr [full] = Some (0%nat, full) ∧
  find_region_fitting (2 ^ 64 - 1) 65536 [full] = Some (0%nat, full) ∧
  find_region_fitting 0 nullptr [full] = None.
Proof. intros full. split_and!; vm_compute; reflexivity. Qed.

(** X18.  The search for a region fitting [n] bytes, read on the fields of
    the regions.  A region holds the hint when
    [data () <= hint < top ()] and has room when [top () + n < end ()],
    strictly, with the sums taken in 64 bits.  A non-null hint is tried
    first: the first region that holds it is selected when it has room.
    Otherwise the registry is scanned in creation order and the first region
    with room is selected, and none when no region has room.  A region is
    selected only when it has room, never when it has exactly [n] bytes left;
    and for [n < 2^63] a selected region that lies below address [2^63] with
    [M_size <= M_capacity] has more than [n] bytes left, so that one byte of
    slack remains. *)
Theorem find_region_fitting_policy n hint rs :
  let holds (r : Region) :=
    M_data r ≤ hint < (M_data r + M_size r) mod 2 ^ 64 in
  let room (r : Region) :=
    (M_data r + M_size r + n) mod 2 ^ 64
    < (M_data r + M_capacity r) mod 2 ^ 64 in
  let hinted (i : nat) (r : Region) :=
    rs !! i = Some r ∧ holds r ∧
    ∀ j r', (j < i)%nat → rs !! j = Some r' → ¬ holds r' in
  let first_fit (i : nat) (r : Region) :=
    rs !! i = Some r ∧ room r ∧
    ∀ j r', (j < i)%nat → rs !! j = Some r' → ¬ room r' in
  (∀ i r, hint ≠ nullptr → hinted i r → room r →
          find_region_fitting n hint rs = Some (i, r)) ∧
  ((hint = nullptr ∨ ∀ i r, hinted i r → ¬ room r) →
   (∀ i r, find_region_fitting n hint rs = Some (i, r) ↔ first_fit i r) ∧
   (find_region_fitting n hint rs = None ↔
    ∀ i r, rs !! i = Some r → ¬ room r)) ∧
  (∀ i r, find_region_fitting n hint rs = Some (i, r) →
          rs !! i = Some r ∧ room r) ∧
  (∀ i r, rs !! i = Some r → M_capacity r - M_size r = n →
          find_region_fitting n hint rs ≠ Some (i, r)) ∧
  (∀ i r, find_region_fitting n hint rs = Some (i, r) →
          0 ≤ n < 2 ^ 63 → 0 ≤ M_data r → 0 ≤ M_size r ≤ M_capacity r →
          M_data r + M_capacity r ≤ 2 ^ 63 →
          M_size r + n < M_capacity r).
Proof.
  intros holds room hinted first_fit.
  assert (∀ i r, hinted i r → find_region_containing hint rs = Some (i, r))
    as Hhinted.
  { intros i r (Hl & Hh & Hb). apply (scan_first _ 0%nat); [done| |].
    - by apply contains_fields.
    - intros j r' Hj Hr'. specialize (Hb j r' Hj Hr').
      destruct (contains hint r') eqn:Hc; [|done].
      by apply contains_fields in Hc. }
  assert (∀ i r, find_region_containing hint rs = Some (i, r) → hinted i r)
    as Hfound.
  { intros i r (Hl & Hc & Hb)%find_region_containing_Some.
    split_and!; [done|by apply contains_fields|].
    intros j r' Hj Hr' Hh. apply contains_fields in Hh.
    by rewrite (Hb j r' Hj Hr') in Hh. }
  split_and!.
  - intros i r Hh Hhint Hroom. unfold find_region_fitting.
    rewrite (proj2 (Z.eqb_neq hint nullptr)) by done.
    rewrite (Hhinted i r Hhint).
    by rewrite (proj2 (fits_fields n r)).
  - intros Hcase.
    assert (find_region_fitting n hint rs = scan (fits n) 0 rs) as ->.
    { unfold find_region_fitting.
      destruct Hcase as [->|Hno]; [done|].
      destruct (hint =? nullptr); [done|].
      destruct (find_region_containing hint rs) as [[i r]|] eqn:Hfind;
        [|done].
      by rewrite (proj2 (fits_fields_false n r) (Hno i r (Hfound i r eq_refl))). }
    split.
    + intros i r. split.
      * intros (_ & Hl & HP & Hb)%scan_Some.
        rewrite Nat.sub_0_r in Hl, Hb.
        split_and!; [done|by apply fits_fields|].
        intros j r' Hj Hr'. by apply fits_fields_false, (Hb j r').
      * intros (Hl & HP & Hb). apply (scan_first _ 0%nat);
          [done|by apply fits_fields|].
        intros j r' Hj Hr'. by apply fits_fields_false, (Hb j r').
    + rewrite scan_None, Forall_lookup. split.
      * intros H i r Hl. by apply fits_fields_false, (H i r).
      * intros H i r Hl. by apply fits_fields_false, (H i r).
  - intros i r (Hl & Hf)%find_region_fitting_Some.
    split; [done|by apply fits_fields].
  - intros i r _ Hn (_ & Hf)%find_region_fitting_Some.
    rewrite fits_exact in Hf by done. discriminate.
  - intros i r (_ & Hf)%find_region_fitting_Some Hn Hd Hs Hend.
    apply fits_fields in Hf.
    rewrite !Z.mod_small in Hf by lia. lia.
Qed.

Lemma find_region_fitting_policy_witness :
  let r0 := {| M_capacity := 4096; M_data := 65536; M_size := 100;
               M_ref_count := 1 |} in
  let r1 := {| M_capacity := 4096; M_data := 131072; M_size := 4000;
               M_ref_count := 2 |} in
  find_region_fitting 95 135000 [r0; r1] = Some (1%nat, r1) ∧
  M_size r1 + 95 < M_capacity r1 ∧
  find_region_fitting 96 135000 [r0; r1] = Some (0%nat, r0) ∧
  find_region_fitting 95 nullptr [r0; r1] = Some (0%nat, r0) ∧
  find_region_fitting 3996 135000 [r0; r1] = None.
Proof.
  intros r0 r1.
  pose proof (find_region_fitting_policy 95 135000 [r0; r1]) as Hhint.
  pose proof (find_region_fitting_policy 96 135000 [r0; r1]) as Hfull.
  pose proof (find_region_fitting_policy 95 nullptr [r0; r1]) as Hnull.
  pose proof (find_region_fitting_policy 3996 135000 [r0; r1]) as Hnone.
  cbv zeta in Hhint, Hfull, Hnull, Hnone.
  destruct Hhint as (Hfirst & _ & _ & _ & Hslack).
  destruct Hfull as (_ & Hfull & _). destruct Hnull as (_ & Hnull & _).
  destruct Hnone as (_ & Hnone & _).
  assert (find_region_fitting 95 135000 [r0; r1] = Some (1%nat, r1)) as Heq.
  { apply Hfirst.
    - unfold nullptr. lia.
    - split; [done|]. split; [compute_done|].
      intros [|j] r' Hj Hr'; [|lia]. simpl in Hr'. injection Hr' as <-.
      compute_done.
    - compute_done. }
  split_and!.
  - exact Heq.
  - apply (Hslack 1%nat r1 Heq); compute_done.
  - apply Hfull.
    + right. intros [|[|i]] r (Hl & Hh & _); try done; injection Hl as <-.
      * destruct Hh as [_ Hh]. vm_compute in Hh. discriminate.
      * compute_done.
    + split; [done|]. split; [compute_done|intros j r' Hj; lia].
  - apply Hnull; [by left|].
    split; [done|]. split; [compute_done|intros j r' Hj; lia].
  - apply Hnone.
    + right. intros [|[|i]] r (Hl & Hh & _); try done; injection Hl as <-.
      * destruct Hh as [_ Hh]. vm_compute in Hh. discriminate.
      * compute_done.
    + intros [|[|i]] r Hl; try done; injection Hl as <-; compute_done.
Defined.

(** ** Locality hints *)

(** C3, as stated, fails.  After [allocate (1)] on the empty engine the only
    region has 4095 bytes left; [allocate (4095, hint)] with the hint inside
    that region does not stay there: the strict test [top () + n < end ()]
    rejects the region and a second one is created. *)
Lemma hint_with_exact_room_leaves_region :
  run [(store_at 65536, Allocate 1 nullptr)] [] = ([65536], one_region 1) ∧
  (∃ reg, find_region_containing 65536 (one_region 1) = Some (0%nat, reg) ∧
          4095 ≤ end_ reg - top reg) ∧
  ∃ reg',
    find_region_containing
      (allocate (store_at 131072) 4095 65536 (one_region 1)).1
      (allocate (store_at 131072) 4095 65536 (one_region 1)).2
    = Some (1%nat, reg').
Proof.
  split_and!.
  - vm_compute. reflexivity.
  - eexists. split; [vm_compute; reflexivity|]. vm_compute. discriminate.
  - eexists. vm_compute. reflexivity.
Qed.

(** C3, amended.  When the region containing the hint [p] has more than [n]
    bytes left, [allocate (n, p)] takes the new block from the top of that
    region: the returned address is the region's old top, only that region
    changes, and the owner of the new block is the region that owns [p]. *)
Theorem allocate_hint_locality store n p rs it reg :
  Forall layout_ok rs → all_apart rs → 0 < n →
  find_region_containing p rs = Some (it, reg) →
  n < M_capacity reg - M_size reg →
  let '(q, rs') := allocate store n p rs in
  q = top reg ∧
  rs' = <[it := ref (resize (to_ptrdiff n) reg)]> rs ∧
  ∃ reg', find_region_containing q rs' = Some (it, reg') ∧
          M_data reg' = M_data reg ∧ M_size reg' = M_size reg + n.
Proof.
  intros Hlay Hap Hn Hc Hroom.
  pose proof Hc as (Hl & Hin & _)%find_region_containing_Some.
  assert (layout_ok reg) as Hreg.
  { rewrite Forall_lookup in Hlay. by eapply Hlay. }
  pose proof Hreg as (? & ? & ? & ?).
  assert (n < size_limit) as Hbound by (unfold size_limit, addr_limit in *; lia).
  assert (p ≠ nullptr) as Hp.
  { rewrite contains_ok in Hin by done. unfold nullptr. lia. }
  assert (fits n reg = true) as Hfits by (apply fits_ok; [done|lia|lia]).
  assert (find_region_fitting n p rs = Some (it, reg)) as Hfit.
  { unfold find_region_fitting.
    destruct (p =? nullptr) eqn:E; [by apply Z.eqb_eq in E|].
    by rewrite Hc, Hfits. }
  rewrite (allocate_found _ _ _ _ _ _ Hfit). split_and!; [done|done|].
  set (reg' := ref (resize (to_ptrdiff n) reg)).
  assert (M_size reg' = M_size reg + n) as Hsize.
  { apply resize_grow; [done|lia|lia]. }
  exists reg'. split_and!; [|done|done].
  apply find_region_containing_owner.
  - apply Forall_insert; [done|]. unfold layout_ok. rewrite Hsize.
    simpl. lia.
  - by apply (all_apart_insert rs it reg).
  - apply list_lookup_insert_eq. by eapply lookup_lt_Some.
  - rewrite Hsize, top_ok by done. simpl. lia.
Qed.

Lemma allocate_hint_locality_witness :
  allocate (store_at 131072) 4094 65536 (one_region 1) =
    (65537, [ {| M_capacity := 4096; M_data := 65536; M_size := 4095;
                 M_ref_count := 2 |} ]).
Proof.
  assert (Forall layout_ok (one_region 1)) as Hlay by compute_done.
  assert (all_apart (one_region 1)) as Hap by compute_done.
  assert (0 < 4094) as Hn by lia.
  assert (find_region_containing 65536 (one_region 1) =
          Some (0%nat, {| M_capacity := 4096; M_data := 65536; M_size := 1;
                          M_ref_count := 1 |})) as Hc
    by (vm_compute; reflexivity).
  pose proof (allocate_hint_locality (store_at 131072) 4094 65536
                (one_region 1) _ _ Hlay Hap Hn Hc) as H.
  destruct (allocate (store_at 131072) 4094 65536 (one_region 1)) as [q rs'].
  destruct H as (-> & -> & _); [simpl; lia|].
  vm_compute. reflexivity.
Defined.

(** ** Deallocation *)

(** C6.  [deallocate (p, n)] does nothing when [p] is null (at the front end
    by its own test, in the engine because no region contains address 0).
    When [p] lies in a region, that region's occupancy goes down by one; if it
    reaches 0 the region's size becomes 0; otherwise, if the block ends at the
    top ([top () - n == p]), the size goes down by [n]; otherwise the size
    stays.  Nothing else in the registry changes. *)
Theorem deallocate_effect sizeof_T p n rs :
  Forall region_ok rs → 0 ≤ n < 2 ^ 64 →
  Allocator_deallocate sizeof_T nullptr n rs = rs ∧
  deallocate nullptr n rs = rs ∧
  ∀ it reg, find_region_containing p rs = Some (it, reg) →
    let occupancy := M_ref_count reg - 1 in
    0 ≤ occupancy ∧
    deallocate p n rs =
      <[it := {| M_capacity := M_capacity reg;
                 M_data := M_data reg;
                 M_size := if occupancy =? 0 then 0
                           else if top reg - n =? p then M_size reg - n
                           else M_size reg;
                 M_ref_count := occupancy |}]> rs.
Proof.
  intros Hrs Hn. split_and!.
  - done.
  - apply deallocate_not_contained. by apply null_not_contained.
  - intros it reg Hfind occupancy. subst occupancy.
    pose proof Hfind as (Hl & _)%find_region_containing_Some.
    assert (region_ok reg) as Hreg.
    { rewrite Forall_lookup in Hrs. by eapply Hrs. }
    destruct (deallocate_owned p n rs it reg Hreg Hn Hfind) as [Hpos Heq].
    split; [lia|done].
Qed.

Lemma deallocate_effect_witness :
  Allocator_deallocate 1 nullptr 10 (one_region 30) = one_region 30 ∧
  deallocate 65556 10 (one_region 30) =
    [ {| M_capacity := 4096; M_data := 65536; M_size := 0;
         M_ref_count := 0 |} ].
Proof.
  assert (Forall region_ok (one_region 30)) as Hrs by compute_done.
  assert (0 ≤ 10 < 2 ^ 64) as Hn by lia.
  destruct (deallocate_effect 1 65556 10 (one_region 30) Hrs Hn)
    as (Hnull & _ & Hin).
  split; [exact Hnull|].
  destruct (Hin 0%nat _ eq_refl) as [_ Hd]. rewrite Hd.
  vm_compute. reflexivity.
Defined.

(** ** Reallocation to size 0 and of foreign pointers *)

(** C2.  What the code does when [reallocate] is called with a null pointer
    and a target size of 0: the null test comes first and hands the call to
    [allocate (0, hint)], which has no test for a zero size, so the call
    returns the top of a region (never null) and counts one more occupant in
    it; the front end passes the call through unchanged.  The documented
    result, a null pointer, is only delivered for a non-null [p]
    ([reallocate_to_zero]). *)
Theorem reallocate_null_to_zero_not_null sizeof_T store from_n hint rs :
  Forall region_ok rs → 0 < store S_capacity < 2 ^ 64 →
  let '(r, rs') := reallocate store nullptr from_n 0 hint rs in
  r ≠ nullptr ∧ rs' ≠ rs ∧
  Allocator_reallocate sizeof_T store nullptr from_n 0 hint rs = (r, rs').
Proof.
  intros Hrs Hstore.
  assert (reallocate store nullptr from_n 0 hint rs = allocate store 0 hint rs)
    as Hre by done.
  assert (Allocator_reallocate sizeof_T store nullptr from_n 0 hint rs
          = allocate store 0 hint rs) as Hfront by done.
  rewrite Hfront, Hre. clear Hre Hfront.
  destruct (find_region_fitting 0 hint rs) as [[it reg]|] eqn:Hfit.
  - rewrite (allocate_found _ _ _ _ _ _ Hfit).
    apply find_region_fitting_Some in Hfit as (Hl & _).
    assert (region_ok reg) as [Hlay Hcnt].
    { rewrite Forall_lookup in Hrs. by eapply Hrs. }
    split_and!; [|  |done].
    + rewrite top_ok by done. destruct Hlay as (? & ? & ? & _).
      unfold nullptr. lia.
    + intros Heq. apply (f_equal (.!! it)) in Heq.
      rewrite list_lookup_insert_eq in Heq by (by eapply lookup_lt_Some).
      rewrite Hl in Heq. injection Heq as Heq.
      destruct Hcnt as (Hrc & _).
      by apply (ref_changes reg Hrc) in Heq.
  - rewrite (allocate_new _ _ _ _ Hfit). split_and!; [| |done].
    + unfold top, Region_new; simpl. rewrite Z.add_0_r.
      change (Z.max S_capacity 0) with S_capacity.
      rewrite wrap64_small by lia. unfold nullptr. lia.
    + intros Heq. apply (f_equal length) in Heq.
      rewrite length_app in Heq. simpl in Heq. lia.
Qed.

Lemma reallocate_null_to_zero_not_null_witness :
  reallocate (store_at 65536) nullptr 0 0 nullptr [] =
    (65536, [ {| M_capacity := 4096; M_data := 65536; M_size := 0;
                 M_ref_count := 1 |} ]) ∧
  fst (Allocator_reallocate 1 (store_at 65536) nullptr 0 0 nullptr [])
  ≠ nullptr.
Proof.
  split; [vm_compute; reflexivity|].
  assert (Forall region_ok []) as Hrs by constructor.
  assert (0 < store_at 65536 S_capacity < 2 ^ 64) as Hstore
    by (unfold store_at; lia).
  pose proof (reallocate_null_to_zero_not_null 1 (store_at 65536) 0 nullptr
                [] Hrs Hstore) as H.
  destruct (reallocate (store_at 65536) nullptr 0 0 nullptr []) as [r rs'].
  destruct H as (Hr & _ & ->). exact Hr.
Defined.

(** C10.  A non-null pointer that lies in no region's [data (), top ()) span
    makes [reallocate] return null, whatever the sizes and the hint (a target
    size of 0 included), and the registry comes back as it was: the same
    regions with the same sizes and occupancy counts. *)
Theorem reallocate_foreign_pointer store p from_n to_n hint rs :
  p ≠ nullptr →
  Forall (λ r, ¬ (data r ≤ p < top r)) rs →
  reallocate store p from_n to_n hint rs = (nullptr, rs).
Proof.
  intros Hp Hout. unfold reallocate.
  destruct (p =? nullptr) eqn:Hnull; [by apply Z.eqb_eq in Hnull|].
  assert (find_region_containing p rs = None) as ->; [|done].
  apply find_region_containing_None.
  eapply Forall_impl; [exact Hout|]. intros r Hr. by apply contains_false.
Qed.

Lemma reallocate_foreign_pointer_witness :
  reallocate (store_at 131072) 65600 8 0 nullptr (one_region 10)
  = (nullptr, one_region 10).
Proof.
  apply reallocate_foreign_pointer.
  - discriminate.
  - repeat constructor. vm_compute. intros [_ H]. discriminate H.
Defined.

(** ** Last in, first out *)

(** C8, as stated, fails.  From the empty engine: [A = allocate (4010)]
    leaves 86 bytes in the first region, [B = allocate (200)] therefore
    opens a second region; after [deallocate (B, 200)] the first-fit scan
    for [C = allocate (50)] stops at the first region, and [C] is not [B]. *)
Lemma lifo_reuse_misses_with_room_elsewhere :
  (run [ (store_at 65536, Allocate 4010 nullptr);
         (store_at 131072, Allocate 200 nullptr);
         (store_at 262144, Deallocate 131072 200);
         (store_at 262144, Allocate 50 nullptr) ] []).1
  = [65536; 131072; nullptr; 69546].
Proof. vm_compute. reflexivity. Qed.

(** Freeing the block an allocation has just returned brings the top of its
    region back to the block's address. *)
Lemma top_after_free store m hint rs :
  registry_ok rs → budget 1 rs → 0 < m < size_limit → store_ok store m rs →
  let '(B, rs2) := allocate store m hint rs in
  ∃ it reg2 reg3,
    find_region_containing B rs2 = Some (it, reg2) ∧
    deallocate B m rs2 = <[it := reg3]> rs2 ∧ top reg3 = B.
Proof.
  intros Hrs Hb Hm Hstore.
  destruct (allocate_shape store m hint rs)
    as (it & reg & regions & _ & Hregs & Hl & Hroom & Hsat & ->);
    [done|done|lia|done|].
  region_facts Hregs Hl.
  pose proof Hlay as (? & ? & ? & ?).
  set (reg2 := {| M_capacity := M_capacity reg; M_data := M_data reg;
                  M_size := M_size reg + m;
                  M_ref_count := M_ref_count reg + 1 |}).
  assert (region_ok reg2) as Hreg2.
  { split; [unfold layout_ok|unfold count_ok]; simpl; lia. }
  assert (M_data reg2 = M_data reg) as Hd2 by done.
  assert (M_capacity reg2 = M_capacity reg) as Hc2 by done.
  assert (M_size reg2 = M_size reg + m) as Hs2 by done.
  assert (M_ref_count reg2 = M_ref_count reg + 1) as Hr2 by done.
  clearbody reg2.
  assert (registry_ok (<[it := reg2]> regions)) as Hregs2.
  { by apply (registry_ok_insert regions it reg). }
  assert (find_region_containing (M_data reg + M_size reg)
            (<[it := reg2]> regions) = Some (it, reg2)) as Hown.
  { apply find_region_containing_owner.
    - by apply registry_ok_layout.
    - by destruct Hregs2.
    - apply list_lookup_insert_eq. by eapply lookup_lt_Some.
    - lia. }
  destruct (deallocate_owned (M_data reg + M_size reg) m
              (<[it := reg2]> regions) it reg2 Hreg2) as [_ Hfree];
    [unfold size_limit in *; lia|done|].
  eexists it, reg2, _. split_and!; [done|exact Hfree|].
  destruct Hreg2 as [Hlay2 _].
  unfold top at 1. cbn [M_data M_size].
  rewrite (top_ok reg2), Hd2, Hs2, Hr2 by done.
  unfold addr_limit in *.
  destruct (M_ref_count reg + 1 - 1 =? 0) eqn:E.
  - apply Z.eqb_eq in E. rewrite Hzero by lia. apply wrap64_small. lia.
  - rewrite (proj2 (Z.eqb_eq _ _)) by lia. rewrite wrap64_small by lia. lia.
Qed.

(** The registry after an allocation has been undone: the region that held
    the block has its top back at the block's address; it is either a region
    that was there before, with more than [m] bytes left, or the region
    created for the block, empty again. *)
Lemma allocate_then_free store m hint rs :
  registry_ok rs → budget 1 rs → 0 < m < size_limit → store_ok store m rs →
  let '(B, rs2) := allocate store m hint rs in
  ∃ it reg,
    registry_ok (deallocate B m rs2) ∧
    deallocate B m rs2 !! it = Some reg ∧
    M_data reg + M_size reg = B ∧
    (((it < length rs)%nat ∧ M_size reg + m < M_capacity reg) ∨
     (it = length rs ∧ M_size reg = 0 ∧
      M_capacity reg = Z.max S_capacity m)).
Proof.
  intros Hrs Hb Hm Hstore.
  assert (∀ it reg regions,
    registry_ok regions → regions !! it = Some reg →
    M_size reg + m ≤ M_capacity reg → M_ref_count reg < 2 ^ 32 - 1 →
    deallocate (M_data reg + M_size reg) m
      (<[it := {| M_capacity := M_capacity reg; M_data := M_data reg;
                  M_size := M_size reg + m;
                  M_ref_count := M_ref_count reg + 1 |}]> regions)
    = regions) as Hundo.
  { intros it reg regions Hregs Hl Hroom Hsat.
    region_facts Hregs Hl. pose proof Hlay as (? & ? & ? & ?).
    set (reg2 := {| M_capacity := M_capacity reg; M_data := M_data reg;
                    M_size := M_size reg + m;
                    M_ref_count := M_ref_count reg + 1 |}).
    assert (region_ok reg2) as Hreg2.
    { split; [unfold layout_ok|unfold count_ok]; simpl; lia. }
    assert (registry_ok (<[it := reg2]> regions)) as Hregs2.
    { by apply (registry_ok_insert regions it reg). }
    assert (find_region_containing (M_data reg + M_size reg)
              (<[it := reg2]> regions) = Some (it, reg2)) as Hown.
    { apply find_region_containing_owner.
      - by apply registry_ok_layout.
      - by destruct Hregs2.
      - apply list_lookup_insert_eq. by eapply lookup_lt_Some.
      - simpl. lia. }
    destruct (deallocate_owned (M_data reg + M_size reg) m
                (<[it := reg2]> regions) it reg2 Hreg2) as [_ ->];
      [unfold size_limit in *; lia|done|].
    rewrite list_insert_insert_eq. apply list_insert_id. rewrite Hl.
    f_equal. destruct Hreg2 as [Hlay2 _]. rewrite (top_ok reg2) by done.
    destruct reg as [cap d size rc]. simpl in *. f_equal.
    - destruct (rc + 1 - 1 =? 0) eqn:E.
      + apply Z.eqb_eq in E. rewrite Hzero by lia. reflexivity.
      + rewrite (proj2 (Z.eqb_eq _ _)) by lia. lia.
    - lia. }
  destruct (find_region_fitting m hint rs) as [[it reg]|] eqn:Hfit.
  - rewrite (allocate_found _ _ _ _ _ _ Hfit).
    apply find_region_fitting_Some in Hfit as (Hl & Hfits).
    region_facts Hrs Hl.
    pose proof (budget_lookup _ _ _ _ Hb Hl) as Hroom.
    apply fits_ok in Hfits; [|done|lia].
    destruct (grown_region m reg) as [-> _]; [done|lia|lia|lia|].
    rewrite top_ok by done.
    rewrite Hundo by (done || lia).
    exists it, reg. split_and!; [done|done|done|].
    left. split; [by eapply lookup_lt_Some|done].
  - rewrite (allocate_new _ _ _ _ Hfit).
    destruct Hstore as (Hbase & Hlimit & Hfresh).
    set (reg := Region_new store m).
    assert (layout_ok reg) as Hlay.
    { unfold layout_ok, reg, Region_new. simpl. lia. }
    assert (region_ok reg) as Hreg.
    { split; [done|]. unfold count_ok. simpl. lia. }
    assert (registry_ok (rs ++ [reg])) as Hregs.
    { destruct Hrs as [Hall Hap]. split.
      - apply Forall_app. split; [done|]. by apply Forall_singleton.
      - apply all_apart_snoc; [done|].
        eapply Forall_impl; [exact Hfresh|]. intros r Hr. simpl in Hr.
        unfold apart. simpl. lia. }
    assert ((rs ++ [reg]) !! length rs = Some reg) as Hl
      by (by apply list_lookup_middle).
    destruct (grown_region m reg) as [-> _];
      [done|lia|simpl; lia|simpl; lia|].
    rewrite top_ok by done.
    replace (rs ++ [ {| M_capacity := M_capacity reg; M_data := M_data reg;
                        M_size := M_size reg + m;
                        M_ref_count := M_ref_count reg + 1 |} ])
      with (<[length rs := {| M_capacity := M_capacity reg;
                              M_data := M_data reg;
                              M_size := M_size reg + m;
                              M_ref_count := M_ref_count reg + 1 |}]>
              (rs ++ [reg])).
    2: { replace (length rs) with (length rs + 0)%nat by lia.
         by rewrite insert_app_r. }
    rewrite Hundo by (done || simpl; lia).
    exists (length rs), reg. split_and!; [done|done|done|].
    right. by split_and!.
Qed.

(** C8, amended.  In a well-formed registry allocate [A] ([n] bytes), then
    [B] ([m] bytes), then free [B] with [deallocate (B, m)], all sizes below
    [2^63].  The top of the region that held [B] is then back at [B].  That
    region has more than [c] bytes left for every [c <= m], unless it was
    created for [B] with capacity exactly [m = c].  A following
    [allocate (c, hint)] returns [B] whenever that region has more than [c]
    bytes left, no region created before it has more than [c] bytes left,
    and no other region that holds the hint has more than [c] bytes left. *)
Theorem lifo_reuse sA sB sC n m c hA hB hC rs :
  registry_ok rs → budget 2 rs →
  0 < n < size_limit → 0 < m < size_limit → 0 ≤ c < size_limit →
  store_ok sA n rs →
  let '(A, rs1) := allocate sA n hA rs in
  store_ok sB m rs1 →
  let '(B, rs2) := allocate sB m hB rs1 in
  let rs3 := deallocate B m rs2 in
  ∃ it reg,
    rs3 !! it = Some reg ∧ M_data reg + M_size reg = B ∧
    (c ≤ m → c < m ∨ m < S_capacity ∨ (it < length rs1)%nat →
     M_size reg + c < M_capacity reg) ∧
    (M_size reg + c < M_capacity reg →
     (∀ j r, (j < it)%nat → rs3 !! j = Some r →
             M_capacity r ≤ M_size r + c) →
     (∀ j r, j ≠ it → rs3 !! j = Some r →
             M_data r ≤ hC < M_data r + M_size r →
             M_capacity r ≤ M_size r + c) →
     (allocate sC c hC rs3).1 = B).
Proof.
  intros Hrs Hb Hn Hm Hc HsA.
  destruct (allocate_ok 1 sA n hA rs) as [Hrs1 Hb1];
    [done|lia|done|lia|done|].
  destruct (allocate sA n hA rs) as [A rs1]. simpl in Hrs1, Hb1.
  intros HsB.
  pose proof (allocate_then_free sB m hB rs1 Hrs1 Hb1 Hm HsB) as Hfree.
  destruct (allocate sB m hB rs1) as [B rs2]. intros rs3.
  destruct Hfree as (it & reg & Hrs3 & Hl & Htop & Hcase).
  fold rs3 in Hrs3, Hl.
  region_facts Hrs3 Hl. pose proof Hlay as (? & ? & ? & ?).
  exists it, reg. split_and!; [done|done| |].
  - intros Hle Hwhy. unfold S_capacity in *.
    destruct Hcase as [[_ Hroom]|(Hlast & Hempty & Hcap)]; [lia|].
    destruct Hwhy as [?|[?|Hold]]; lia.
  - intros Hroom Hbefore Hhint.
    assert (∀ j r, rs3 !! j = Some r →
              fits c r = true ↔ M_size r + c < M_capacity r) as Hfits.
    { intros j r Hj. apply fits_ok; [|done].
      by destruct (registry_ok_lookup _ _ _ Hrs3 Hj). }
    assert (scan (fits c) 0 rs3 = Some (it, reg)) as Hscan.
    { apply (scan_first _ 0%nat); [done|by apply (Hfits it)|].
      intros j r Hj Hr. specialize (Hbefore j r Hj Hr).
      destruct (fits c r) eqn:E; [|done].
      apply (Hfits j r Hr) in E. lia. }
    assert (find_region_fitting c hC rs3 = Some (it, reg)) as Hfit.
    { unfold find_region_fitting. destruct (hC =? nullptr); [done|].
      destruct (find_region_containing hC rs3) as [[j r]|] eqn:Hfind;
        [|done].
      apply find_region_containing_Some in Hfind as (Hj & Hin & _).
      destruct (registry_ok_lookup _ _ _ Hrs3 Hj) as [Hlayr _].
      apply contains_ok in Hin; [|done].
      destruct (decide (j = it)) as [->|Hne].
      - assert (r = reg) as -> by congruence.
        by rewrite (proj2 (Hfits it reg Hl)).
      - specialize (Hhint j r Hne Hj Hin).
        destruct (fits c r) eqn:E; [|done].
        apply (Hfits j r Hj) in E. lia. }
    rewrite (allocate_found _ _ _ _ _ _ Hfit). simpl.
    by rewrite top_ok.
Qed.

Lemma lifo_reuse_witness :
  let rs := [ {| M_capacity := 4096; M_data := 65536; M_size := 4090;
                 M_ref_count := 1 |} ] in
  let rs1 := (allocate (store_at 131072) 100 nullptr rs).2 in
  let rs2 := (allocate (store_at 262144) 200 65540 rs1).2 in
  (allocate (store_at 262144) 200 65540 rs1).1 = 131172 ∧
  (allocate (store_at 262144) 150 65540 (deallocate 131172 200 rs2)).1
  = 131172.
Proof.
  intros rs rs1 rs2.
  assert (registry_ok rs) as Hrs by compute_done.
  assert (budget 2 rs) as Hb by compute_done.
  assert (0 < 100 < size_limit) as Hn by (unfold size_limit; lia).
  assert (0 < 200 < size_limit) as Hm by (unfold size_limit; lia).
  assert (0 ≤ 150 < size_limit) as Hc by (unfold size_limit; lia).
  assert (store_ok (store_at 131072) 100 rs) as HsA by compute_done.
  pose proof (lifo_reuse (store_at 131072) (store_at 262144) (store_at 262144)
                100 200 150 nullptr 65540 65540 rs Hrs Hb Hn Hm Hc HsA) as H.
  assert (allocate (store_at 131072) 100 nullptr rs
          = (131072, rs ++ [ {| M_capacity := 4096; M_data := 131072;
                                M_size := 100; M_ref_count := 1 |} ]))
    as HA by (vm_compute; reflexivity).
  assert (rs1 = rs ++ [ {| M_capacity := 4096; M_data := 131072;
                           M_size := 100; M_ref_count := 1 |} ]) as Hrs1
    by (vm_compute; reflexivity).
  rewrite HA, <- Hrs1 in H.
  assert (store_ok (store_at 262144) 200 rs1) as HsB by compute_done.
  specialize (H HsB).
  assert (allocate (store_at 262144) 200 65540 rs1
          = (131172, rs ++ [ {| M_capacity := 4096; M_data := 131072;
                                M_size := 300; M_ref_count := 2 |} ]))
    as HB by (vm_compute; reflexivity).
  assert (rs2 = rs ++ [ {| M_capacity := 4096; M_data := 131072;
                           M_size := 300; M_ref_count := 2 |} ]) as Hrs2
    by (vm_compute; reflexivity).
  rewrite HB, <- Hrs2 in H. cbv zeta in H.
  split; [by rewrite HB|].
  destruct H as (it & reg & Hl & Htop & Hroom & Hreuse).
  assert (deallocate 131172 200 rs2 = rs1) as Hfree
    by (vm_compute; reflexivity).
  rewrite Hfree in Hl, Hreuse |- *. rewrite Hrs1 in Hl.
  destruct it as [|[|it]]; simpl in Hl; [|injection Hl as <-|done].
  { injection Hl as <-. simpl in Htop. lia. }
  apply Hreuse.
  - apply Hroom; [lia|]. left. lia.
  - rewrite Hrs1. intros [|j] r Hj Hr; [|lia].
    injection Hr as <-. simpl. lia.
  - rewrite Hrs1. intros j r Hj Hr.
    destruct j as [|[|j]]; simpl in Hr; [|lia|discriminate].
    injection Hr as <-. simpl. lia.
Defined.

(** X15.  Last in, first out on a fresh engine: when [A] and [B] together leave
    room in the first region, [B] follows [A] directly, and after
    [deallocate (B, m)] any request of at most [m] bytes is given [B]'s
    address, whatever the hints. *)
Lemma lifo_reuse_fresh_engine sA sB sC n m c hA hB hC :
  0 < n → 0 < m → n + m < S_capacity → 0 < c ≤ m → store_ok sA n [] →
  let '(A, rs1) := allocate sA n hA [] in
  let '(B, rs2) := allocate sB m hB rs1 in
  B = A + n ∧ (allocate sC c hC (deallocate B m rs2)).1 = B.
Proof.
  unfold S_capacity. intros Hn Hm Hroom Hc (Hbase & Hlimit & _).
  replace (Z.max S_capacity n) with 4096 in * by (unfold S_capacity; lia).
  set (d := sA 4096) in *. unfold addr_limit in *.
  set (r0 := {| M_capacity := 4096; M_data := d; M_size := 0;
                M_ref_count := 0 |}).
  set (r1 := {| M_capacity := 4096; M_data := d; M_size := n;
                M_ref_count := 1 |}).
  set (r2 := {| M_capacity := 4096; M_data := d; M_size := n + m;
                M_ref_count := 2 |}).
  assert (layout_ok r0 ∧ layout_ok r1 ∧ layout_ok r2) as (Hl0 & Hl1 & Hl2).
  { unfold layout_ok, S_capacity, addr_limit. simpl. lia. }
  assert (Region_new sA n = r0) as Hnew.
  { unfold Region_new.
    replace (Z.max S_capacity n) with 4096 by (unfold S_capacity; lia).
    done. }
  assert (allocate sA n hA [] = (d, [r1])) as ->.
  { rewrite allocate_new by (unfold find_region_fitting; simpl;
                              by destruct (hA =? nullptr)).
    rewrite Hnew. destruct (grown_region n r0) as [-> _];
      [done|unfold size_limit; lia|simpl; lia|simpl; lia|].
    rewrite top_ok by done. simpl. by rewrite Z.add_0_r. }
  assert (allocate sB m hB [r1] = (d + n, [r2])) as ->.
  { rewrite (allocate_found sB m hB [r1] 0%nat r1).
    - destruct (grown_region m r1) as [-> _];
        [done|unfold size_limit; lia|simpl; lia|simpl; lia|].
      by rewrite top_ok.
    - apply find_region_fitting_single. apply fits_ok;
        [done|unfold size_limit; lia|simpl; lia]. }
  split; [done|].
  assert (deallocate (d + n) m [r2] = [r1]) as ->.
  { assert (find_region_containing (d + n) [r2] = Some (0%nat, r2)) as Hown.
    { unfold find_region_containing. simpl.
      assert (contains (d + n) r2 = true) as ->; [|done].
      apply contains_ok; [done|]. simpl. lia. }
    destruct (deallocate_owned (d + n) m [r2] 0%nat r2) as [_ ->];
      [|lia|done|].
    { split; [done|]. unfold count_ok. simpl. lia. }
    rewrite top_ok by done. simpl.
    replace (d + (n + m) - m) with (d + n) by lia. rewrite Z.eqb_refl.
    unfold r1. do 2 f_equal. lia. }
  rewrite (allocate_found sC c hC [r1] 0%nat r1).
  - simpl. by rewrite top_ok.
  - apply find_region_fitting_single. apply fits_ok;
      [done|unfold size_limit; lia|simpl; lia].
Qed.

(** ** Churn *)

(** Cycles of [allocate (4096)] / [deallocate]: the live set is one block of
    4096 bytes, which is the capacity of the region created for it, yet the
    second cycle creates a second region, because a cleared region of
    capacity 4096 does not pass [top () + 4096 < end ()]. *)
Lemma churn_at_capacity_grows :
  length (churn [ (store_at 65536, 4096, nullptr) ] []) = 1%nat ∧
  length (churn [ (store_at 65536, 4096, nullptr);
                  (store_at 131072, 4096, nullptr) ] []) = 2%nat ∧
  Forall (λ r, M_capacity r = 4096)
    (churn [ (store_at 65536, 4096, nullptr);
             (store_at 131072, 4096, nullptr) ] []).
Proof.
  split_and!; [vm_compute; reflexivity..|].
  vm_compute. repeat constructor.
Qed.

(** An idle region: cleared and without occupants. *)
Lemma cycle_on_idle_region store m hint r :
  layout_ok r → M_size r = 0 → M_ref_count r = 0 →
  0 < m < M_capacity r →
  let '(p, regions) := allocate store m hint [r] in
  deallocate p m regions = [r].
Proof.
  intros Hlay Hsize Hcount Hm.
  pose proof Hlay as (? & ? & ? & ?). unfold addr_limit in *.
  assert (0 ≤ m < size_limit) as Hm' by (unfold size_limit; lia).
  assert (fits m r = true) as Hfits by (apply fits_ok; [done|done|lia]).
  assert (∀ h, contains h r = false) as Hout.
  { intros h. apply contains_false.
    rewrite <- contains_spec, contains_ok by done. lia. }
  assert (find_region_fitting m hint [r] = Some (0%nat, r)) as Hfit.
  { unfold find_region_fitting, find_region_containing. simpl.
    rewrite Hout, Hfits. by destruct (hint =? nullptr). }
  rewrite (allocate_found _ _ _ _ _ _ Hfit). simpl.
  destruct (grown_region m r) as [Heq Hr1]; [done|done|lia|lia|].
  set (r1 := ref (resize (to_ptrdiff m) r)) in *.
  assert (contains (top r) r1 = true) as Hin.
  { destruct Hr1 as [Hlay1 _]. apply contains_ok; [done|].
    rewrite top_ok, Heq by done. simpl. lia. }
  assert (find_region_containing (top r) [r1] = Some (0%nat, r1)) as Hown.
  { unfold find_region_containing. simpl. by rewrite Hin. }
  destruct (deallocate_owned (top r) m [r1] 0%nat r1 Hr1) as [_ ->];
    [lia|done|].
  rewrite Heq. simpl. rewrite Hcount. simpl. f_equal.
  destruct r; simpl in *. by subst.
Qed.

Lemma churn_idle_region cycles r :
  layout_ok r → M_size r = 0 → M_ref_count r = 0 →
  Forall (λ '(_, m, _), 0 < m < M_capacity r) cycles →
  churn cycles [r] = [r].
Proof.
  intros Hlay Hsize Hcount Hcycles.
  induction Hcycles as [|[[store m] hint] cycles Hm _ IH]; [done|].
  simpl.
  pose proof (cycle_on_idle_region store m hint r Hlay Hsize Hcount Hm) as H.
  destruct (allocate store m hint [r]) as [p regions]. by rewrite H.
Qed.

(** The first cycle creates one region, of capacity [max (4096, n)]; as long
    as every later cycle asks for less than that capacity (the fit test
    needs one byte to spare), the cycles keep using that region and no
    second region is ever created. *)
Theorem churn_keeps_one_region store n hint cycles :
  0 < n < size_limit → store_ok store n [] →
  Forall (λ '(_, m, _), 0 < m < Z.max S_capacity n) cycles →
  length (churn ((store, n, hint) :: cycles) []) = 1%nat.
Proof.
  intros Hn (Hbase & Hlimit & _) Hcycles.
  set (r := Region_new store n).
  assert (layout_ok r) as Hlay.
  { unfold layout_ok, r, Region_new. simpl. lia. }
  assert (churn ((store, n, hint) :: cycles) [] = churn cycles [r]) as ->.
  { simpl. f_equal.
    assert (find_region_fitting n hint [] = None) as Hfit.
    { unfold find_region_fitting. simpl. by destruct (hint =? nullptr). }
    rewrite (allocate_new _ _ _ _ Hfit). simpl. fold r.
    destruct (grown_region n r) as [Heq Hr1];
      [done|lia|simpl; lia|simpl; lia|].
    set (r1 := ref (resize (to_ptrdiff n) r)) in *.
    assert (contains (top r) r1 = true) as Hin.
    { destruct Hr1 as [Hlay1 _]. apply contains_ok; [done|].
      rewrite top_ok, Heq by done. simpl. lia. }
    assert (find_region_containing (top r) [r1] = Some (0%nat, r1)) as Hown.
    { unfold find_region_containing. simpl. by rewrite Hin. }
    destruct (deallocate_owned (top r) n [r1] 0%nat r1 Hr1) as [_ ->];
      [unfold size_limit in *; lia|done|].
    rewrite Heq. reflexivity. }
  rewrite churn_idle_region; done.
Qed.

Lemma churn_keeps_one_region_witness :
  length (churn [ (store_at 65536, 100, nullptr);
                  (store_at 131072, 4095, 65536);
                  (store_at 131072, 1, nullptr) ] []) = 1%nat.
Proof.
  apply churn_keeps_one_region.
  - unfold size_limit. lia.
  - compute_done.
  - repeat constructor; simpl; lia.
Defined.

(** ** Requests close to [SIZE_MAX]

    [top () + n] is computed in 64 bits.  For [n] close to [2^64] the sum
    wraps around to an address below [top ()], the test
    [top () + n < end ()] succeeds, and [resize (n)] moves the top of the
    region backwards or far beyond its end. *)

(** C5.  The code at a failing input: after [allocate (1)], the call
    [allocate (2^64 - 2)] is served from the same region and leaves it with
    [M_size = 2^64 - 1], far above its capacity of 4096. *)
Theorem size_exceeds_capacity_after_huge_request :
  run [ (store_at 65536, Allocate 1 nullptr);
        (store_at 131072, Allocate (2 ^ 64 - 2) nullptr) ] []
  = ([65536; 65537],
     [ {| M_capacity := 4096; M_data := 65536;
          M_size := 2 ^ 64 - 1; M_ref_count := 2 |} ]) ∧
  Exists (λ r, M_capacity r < M_size r)
    (run [ (store_at 65536, Allocate 1 nullptr);
           (store_at 131072, Allocate (2 ^ 64 - 2) nullptr) ] []).2.
Proof.
  split; [vm_compute; reflexivity|].
  apply Exists_cons_hd. vm_compute. reflexivity.
Qed.

(** C1.  The code at a failing input: [allocate (2)] returns a block [A];
    [allocate (2^64 - 1)] is served from the same region and moves its top
    back by one byte; with both blocks live, the following [allocate (1)]
    returns [A + 1], a byte inside the live block [A]. *)
Theorem huge_request_makes_blocks_overlap :
  let before := [ (store_at 65536, Allocate 2 nullptr);
                  (store_at 131072, Allocate (2 ^ 64 - 1) nullptr) ] in
  run before [] =
    ([65536; 65538],
     [ {| M_capacity := 4096; M_data := 65536;
          M_size := 1; M_ref_count := 2 |} ]) ∧
  live_after before [] [] = [(65538, 2 ^ 64 - 1); (65536, 2)] ∧
  (allocate (store_at 131072) 1 nullptr (run before []).2).1 = 65537 ∧
  overlap 65537 1 65536 2 = true.
Proof. intros before. split_and!; vm_compute; reflexivity. Qed.

(** ** Live blocks stay apart

    For requests below [size_limit] and fewer than [2^32] calls that respect
    the caller's obligations, the blocks the engine hands out never overlap
    a live block. *)

Lemma disjoint_blocks_spec (a b : block) :
  disjoint_blocks a b ↔ a.1 + a.2 ≤ b.1 ∨ b.1 + b.2 ≤ a.1.
Proof.
  unfold disjoint_blocks, overlap.
  rewrite andb_false_iff, !Z.ltb_ge. lia.
Qed.

Lemma inside_within reg (b : block) :
  layout_ok reg → 0 < b.2 → inside reg b → within reg b.
Proof. unfold layout_ok, inside, within. lia. Qed.

Lemma owner_unique rs i j ri rj (b : block) :
  all_apart rs → rs !! i = Some ri → rs !! j = Some rj →
  within ri b → within rj b → i = j.
Proof.
  intros Hap Hi Hj Hbi Hbj. destruct (decide (i = j)) as [|Hne]; [done|].
  pose proof (all_apart_distinct rs i j ri rj Hap Hne Hi Hj) as H.
  unfold apart, within in *. lia.
Qed.

Lemma blocks_ok_cons (b : block) live :
  blocks_ok live → 0 < b.2 → Forall (disjoint_blocks b) live →
  blocks_ok (b :: live).
Proof.
  intros (Hnd & Hpos & Hdis) Hb Hfresh. rewrite Forall_forall in Hfresh.
  split_and!.
  - apply NoDup_cons. split; [|done]. intros Hin.
    apply Hfresh, disjoint_blocks_spec in Hin. lia.
  - by apply Forall_cons.
  - intros x y [->|Hx]%elem_of_cons [->|Hy]%elem_of_cons Hne.
    + done.
    + by apply Hfresh.
    + apply disjoint_blocks_spec.
      apply Hfresh, disjoint_blocks_spec in Hx. lia.
    + by apply Hdis.
Qed.

Lemma blocks_ok_filter (P : block → Prop) `{!∀ b, Decision (P b)} live :
  blocks_ok live → blocks_ok (filter P live).
Proof.
  intros (Hnd & Hpos & Hdis). split_and!.
  - by apply NoDup_filter.
  - rewrite Forall_forall in Hpos. apply Forall_forall.
    intros x [_ Hx]%list_elem_of_filter. by apply Hpos.
  - intros x y [_ Hx]%list_elem_of_filter [_ Hy]%list_elem_of_filter.
    by apply Hdis.
Qed.

Lemma occupants_cons reg (b : block) live :
  occupants reg (b :: live) =
  (if decide (within reg b) then 1 else 0) + occupants reg live.
Proof.
  unfold occupants. rewrite filter_cons.
  destruct (decide (within reg b)); simpl length; lia.
Qed.

Lemma occupants_nonneg reg live : 0 ≤ occupants reg live.
Proof. unfold occupants. lia. Qed.

Lemma occupants_remove_other reg (b : block) live :
  ¬ within reg b →
  occupants reg (filter (λ x, x ≠ b) live) = occupants reg live.
Proof.
  intros Hb. induction live as [|x live IH]; [done|].
  rewrite filter_cons. destruct (decide (x ≠ b)) as [Hne|Heq].
  - rewrite !occupants_cons. lia.
  - assert (x = b) as -> by (by destruct (decide (x = b))).
    rewrite occupants_cons, decide_False by done. lia.
Qed.

Lemma filter_absent (b : block) (live : list block) :
  b ∉ live → filter (λ x, x ≠ b) live = live.
Proof.
  induction live as [|x live IH]; [done|].
  intros [Hx Hb]%not_elem_of_cons.
  rewrite filter_cons, decide_True by done. by rewrite IH.
Qed.

Lemma occupants_remove reg (b : block) live :
  NoDup live → b ∈ live → within reg b →
  occupants reg (filter (λ x, x ≠ b) live) = occupants reg live - 1.
Proof.
  intros Hnd Hin Hb. induction live as [|x live IH]; [by apply elem_of_nil in Hin|].
  apply NoDup_cons in Hnd as [Hx Hnd].
  rewrite filter_cons. destruct (decide (x ≠ b)) as [Hne|Heq].
  - rewrite !occupants_cons. rewrite IH; [lia|done|].
    apply elem_of_cons in Hin as [->|Hin]; done.
  - assert (x = b) as -> by (by destruct (decide (x = b))).
    rewrite occupants_cons. rewrite decide_True by done.
    assert (filter (λ x, x ≠ b) live = live) as ->; [|lia].
    clear IH Hin Hnd. induction live as [|y live IH]; [done|].
    apply not_elem_of_cons in Hx as [Hy Hx].
    rewrite filter_cons, decide_True by done. by rewrite IH.
Qed.

Lemma occupants_member reg (b : block) live :
  b ∈ live → within reg b → 1 ≤ occupants reg live.
Proof.
  intros Hin Hb. induction live as [|x live IH]; [by apply elem_of_nil in Hin|].
  rewrite occupants_cons. pose proof (occupants_nonneg reg live).
  apply elem_of_cons in Hin as [->|Hin].
  - rewrite decide_True by done. lia.
  - specialize (IH Hin). destruct (decide (within reg x)); lia.
Qed.

Lemma occupants_same_place reg reg' live :
  M_data reg' = M_data reg → M_capacity reg' = M_capacity reg →
  occupants reg' live = occupants reg live.
Proof.
  intros Hd Hc. unfold occupants. do 2 f_equal.
  apply list_filter_iff. intros b. unfold within. by rewrite Hd, Hc.
Qed.

Lemma occupants_none reg live :
  Forall (λ b, ¬ within reg b) live → occupants reg live = 0.
Proof.
  induction 1 as [|b live Hb _ IH]; [done|].
  rewrite occupants_cons, decide_False by done. lia.
Qed.

Lemma ghost_ok_layout rs live it reg :
  ghost_ok rs live → rs !! it = Some reg → layout_ok reg.
Proof. intros (Hlay & _) Hl. rewrite Forall_lookup in Hlay. by eapply Hlay. Qed.

Lemma ghost_ok_positive rs live (b : block) :
  ghost_ok rs live → b ∈ live → 0 < b.2.
Proof.
  intros (_ & _ & (_ & Hpos & _) & _) Hb. rewrite Forall_forall in Hpos.
  by apply Hpos.
Qed.

Lemma ghost_ok_inside rs live (b : block) :
  ghost_ok rs live → b ∈ live →
  ∃ it reg, rs !! it = Some reg ∧ inside reg b ∧ within reg b.
Proof.
  intros Hok Hb. pose proof Hok as (_ & _ & _ & Hin & _).
  rewrite Forall_forall in Hin. destruct (Hin _ Hb) as (it & reg & Hl & Hi).
  exists it, reg. split_and!; [done|done|].
  apply inside_within;
    [by eapply ghost_ok_layout|by eapply ghost_ok_positive|done].
Qed.

(** A new region at the end of the registry holds no live block. *)
Lemma ghost_ok_snoc rs live reg :
  ghost_ok rs live → layout_ok reg → all_apart (rs ++ [reg]) →
  M_ref_count reg = 0 →
  ghost_ok (rs ++ [reg]) live.
Proof.
  intros Hok Hreg Hap' Hrc.
  pose proof Hok as (Hlay & Hap & Hblocks & Hin & Hocc).
  split_and!; [|done|done| |].
  - apply Forall_app. split; [done|]. by apply Forall_singleton.
  - eapply Forall_impl; [exact Hin|]. intros b (it & r & Hl & Hb).
    exists it, r. split; [|done]. by apply lookup_app_l_Some.
  - apply Forall_app. split; [done|]. apply Forall_singleton.
    rewrite occupants_none; [done|]. apply Forall_forall. intros b Hb Hnew.
    destruct (ghost_ok_inside _ _ _ Hok Hb) as (it & r & Hl & _ & Hw).
    assert (it = length rs) as ->.
    { apply (owner_unique (rs ++ [reg]) it (length rs) r reg b);
        [done|by apply lookup_app_l_Some|by apply list_lookup_middle|done..]. }
    apply lookup_lt_Some in Hl. lia.
Qed.

(** A block is added at the top of a region. *)
Lemma ghost_ok_add rs live it reg reg' (b : block) :
  ghost_ok rs live → rs !! it = Some reg → layout_ok reg' →
  M_data reg' = M_data reg → M_capacity reg' = M_capacity reg →
  M_ref_count reg' = M_ref_count reg + 1 →
  0 < b.2 → inside reg' b →
  (∀ x, x ∈ live → inside reg x → inside reg' x ∧ disjoint_blocks b x) →
  ghost_ok (<[it := reg']> rs) (b :: live).
Proof.
  intros Hok Hl Hlay' Hd Hc Hcount Hb Hbin Hrest.
  pose proof Hok as (Hlay & Hap & Hblocks & Hin & Hocc).
  assert (it < length rs)%nat as Hlen by (by eapply lookup_lt_Some).
  assert (within reg b) as Hbw.
  { pose proof (inside_within _ _ Hlay' Hb Hbin).
    unfold within in *. by rewrite <- Hd, <- Hc. }
  split_and!.
  - by apply Forall_insert.
  - by apply (all_apart_insert rs it reg).
  - apply blocks_ok_cons; [done|done|]. apply Forall_forall. intros x Hx.
    destruct (ghost_ok_inside _ _ _ Hok Hx) as (j & rj & Hj & Hxin & Hxw).
    destruct (decide (j = it)) as [->|Hne].
    + assert (rj = reg) as -> by congruence. by apply Hrest.
    + pose proof (all_apart_distinct rs j it rj reg Hap Hne Hj Hl) as Hapart.
      pose proof (ghost_ok_layout _ _ _ _ Hok Hj) as (_ & _ & ? & _).
      destruct Hlay' as (_ & _ & ? & _).
      apply disjoint_blocks_spec.
      unfold apart, inside in *. rewrite Hd, Hc in *. lia.
  - apply Forall_cons. split.
    + exists it, reg'. split; [by apply list_lookup_insert_eq|done].
    + apply Forall_forall. intros x Hx.
      destruct (ghost_ok_inside _ _ _ Hok Hx) as (j & rj & Hj & Hxin & _).
      destruct (decide (j = it)) as [->|Hne].
      * assert (rj = reg) as -> by congruence.
        exists it, reg'. split; [by apply list_lookup_insert_eq|].
        by apply Hrest.
      * exists j, rj. split; [by rewrite list_lookup_insert_ne|done].
  - apply Forall_lookup. intros j r Hj. rewrite occupants_cons.
    rewrite Forall_lookup in Hocc.
    destruct (decide (j = it)) as [->|Hne].
    + rewrite list_lookup_insert_eq in Hj by done. injection Hj as <-.
      rewrite (occupants_same_place reg reg') by done.
      specialize (Hocc _ _ Hl). simpl in Hocc.
      rewrite decide_True; [lia|]. unfold within in *. by rewrite Hd, Hc.
    + rewrite list_lookup_insert_ne in Hj by done.
      specialize (Hocc _ _ Hj). simpl in Hocc.
      rewrite decide_False; [lia|]. intros Hw.
      by pose proof (owner_unique rs j it r reg b Hap Hj Hl Hw Hbw).
Qed.

(** A live block is taken out of its region. *)
Lemma ghost_ok_remove rs live it reg reg' (b : block) :
  ghost_ok rs live → rs !! it = Some reg → b ∈ live → inside reg b →
  layout_ok reg' →
  M_data reg' = M_data reg → M_capacity reg' = M_capacity reg →
  M_ref_count reg' = M_ref_count reg - 1 →
  (∀ x, x ∈ live → x ≠ b → inside reg x → inside reg' x) →
  ghost_ok (<[it := reg']> rs) (filter (λ x, x ≠ b) live).
Proof.
  intros Hok Hl Hb Hbin Hlay' Hd Hc Hcount Hrest.
  pose proof Hok as (Hlay & Hap & Hblocks & Hin & Hocc).
  assert (it < length rs)%nat as Hlen by (by eapply lookup_lt_Some).
  assert (within reg b) as Hbw.
  { apply inside_within;
      [by eapply ghost_ok_layout|by eapply ghost_ok_positive|done]. }
  split_and!.
  - by apply Forall_insert.
  - by apply (all_apart_insert rs it reg).
  - by apply blocks_ok_filter.
  - apply Forall_forall. intros x [Hne Hx]%list_elem_of_filter.
    destruct (ghost_ok_inside _ _ _ Hok Hx) as (j & rj & Hj & Hxin & _).
    destruct (decide (j = it)) as [->|Hji].
    + assert (rj = reg) as -> by congruence.
      exists it, reg'. split; [by apply list_lookup_insert_eq|].
      by apply Hrest.
    + exists j, rj. split; [by rewrite list_lookup_insert_ne|done].
  - apply Forall_lookup. intros j r Hj. rewrite Forall_lookup in Hocc.
    destruct (decide (j = it)) as [->|Hne].
    + rewrite list_lookup_insert_eq in Hj by done. injection Hj as <-.
      rewrite (occupants_same_place reg reg') by done.
      rewrite occupants_remove; [|by destruct Hblocks|done|done].
      specialize (Hocc _ _ Hl). simpl in Hocc. lia.
    + rewrite list_lookup_insert_ne in Hj by done.
      specialize (Hocc _ _ Hj). simpl in Hocc.
      rewrite occupants_remove_other; [done|]. intros Hw.
      by pose proof (owner_unique rs j it r reg b Hap Hj Hl Hw Hbw).
Qed.

(** No live block starts at the null address. *)
Lemma ghost_ok_no_null rs live n : ghost_ok rs live → (nullptr, n) ∉ live.
Proof.
  intros Hok Hin.
  destruct (ghost_ok_inside _ _ _ Hok Hin) as (it & reg & Hl & [Hd _] & _).
  destruct (ghost_ok_layout _ _ _ _ Hok Hl) as (? & _).
  unfold nullptr in Hd. simpl in Hd. lia.
Qed.

(** A live block is replaced, in its region, by a block at the same address:
    the region keeps its occupancy, and its size may change as long as the
    other blocks stay inside and clear of the new block. *)
Lemma ghost_ok_exchange rs live it reg reg' (b b' : block) :
  ghost_ok rs live → rs !! it = Some reg → b ∈ live → inside reg b →
  layout_ok reg' →
  M_data reg' = M_data reg → M_capacity reg' = M_capacity reg →
  M_ref_count reg' = M_ref_count reg →
  0 < b'.2 → inside reg' b' →
  (∀ x, x ∈ live → x ≠ b → inside reg x →
        inside reg' x ∧ disjoint_blocks b' x) →
  ghost_ok (<[it := reg']> rs) (b' :: filter (λ x, x ≠ b) live).
Proof.
  intros Hok Hl Hb Hbin Hlay' Hd Hc Hcount Hb' Hbin' Hrest.
  set (mid := {| M_capacity := M_capacity reg; M_data := M_data reg;
                 M_size := M_size reg;
                 M_ref_count := M_ref_count reg - 1 |}).
  assert (ghost_ok (<[it := mid]> rs) (filter (λ x, x ≠ b) live)) as Hmid.
  { pose proof (ghost_ok_layout rs live it reg Hok Hl) as Hlay.
    apply (ghost_ok_remove rs live it reg);
      [done|done|done|done|exact Hlay|done|done|done|].
    by intros x _ _ Hx. }
  rewrite <- (list_insert_insert_eq rs it reg' mid).
  apply (ghost_ok_add _ _ it mid); try done.
  - apply list_lookup_insert_eq. by eapply lookup_lt_Some.
  - rewrite Hcount. simpl. lia.
  - intros x [Hne Hx]%list_elem_of_filter Hxin. by apply Hrest.
Qed.

(** Among the live blocks of a region, the one that ends at the top has all
    the others below it. *)
Lemma below_top_block rs live it reg (b x : block) :
  ghost_ok rs live → rs !! it = Some reg →
  b ∈ live → x ∈ live → x ≠ b →
  inside reg b → inside reg x → b.1 + b.2 = M_data reg + M_size reg →
  x.1 + x.2 ≤ b.1.
Proof.
  intros Hok Hl Hb Hx Hne Hbin Hxin Htop.
  pose proof (ghost_ok_positive _ _ _ Hok Hx).
  pose proof (ghost_ok_positive _ _ _ Hok Hb).
  destruct Hok as (_ & _ & (_ & _ & Hdis) & _).
  pose proof (Hdis _ _ Hx Hb Hne) as H'%disjoint_blocks_spec.
  unfold inside in *. lia.
Qed.

(** A region that counts one occupant holds no second live block. *)
Lemma sole_occupant rs live it reg (b x : block) :
  ghost_ok rs live → rs !! it = Some reg → M_ref_count reg = 1 →
  b ∈ live → x ∈ live → x ≠ b → inside reg b → inside reg x → False.
Proof.
  intros Hok Hl Hrc Hb Hx Hne Hbin Hxin.
  pose proof (ghost_ok_layout _ _ _ _ Hok Hl) as Hlay.
  pose proof (inside_within _ _ Hlay (ghost_ok_positive _ _ _ Hok Hb) Hbin)
    as Hbw.
  pose proof (inside_within _ _ Hlay (ghost_ok_positive _ _ _ Hok Hx) Hxin)
    as Hxw.
  destruct Hok as (_ & _ & (Hnd & _) & _ & Hocc).
  rewrite Forall_lookup in Hocc. specialize (Hocc _ _ Hl). simpl in Hocc.
  pose proof (occupants_remove reg b live Hnd Hb Hbw) as Hrem.
  assert (1 ≤ occupants reg (filter (λ y, y ≠ b) live)).
  { apply (occupants_member reg x); [|done]. by apply list_elem_of_filter. }
  lia.
Qed.

Lemma heap_ok_empty : heap_ok [] [].
Proof.
  split; [split; [apply Forall_nil_2|exact I]|].
  split_and!; [apply Forall_nil_2|exact I| |apply Forall_nil_2..].
  split_and!; [apply NoDup_nil_2|apply Forall_nil_2|].
  intros a b Ha. by apply elem_of_nil in Ha.
Qed.

(** [allocate] hands out a non-null block that meets no live block. *)
Lemma heap_ok_allocate store n hint rs live :
  heap_ok rs live → budget 1 rs → 0 < n < size_limit →
  store_ok store n rs →
  let '(q, rs') := allocate store n hint rs in
  q ≠ nullptr ∧ Forall (disjoint_blocks (q, n)) live ∧
  heap_ok rs' ((q, n) :: live).
Proof.
  intros [Hrs Hok] Hb Hn Hstore.
  destruct (allocate_ok 0 store n hint rs) as [Hrs' _];
    [done|lia|done|lia|done|].
  destruct (allocate_shape store n hint rs)
    as (it & reg & regions & Hcase & Hregs & Hl & Hroom & Hsat & Heq);
    [done|done|lia|done|].
  rewrite Heq in Hrs' |- *. clear Heq. simpl in Hrs'.
  region_facts Hregs Hl.
  pose proof Hlay as (? & ? & ? & ?).
  assert (ghost_ok regions live) as Hok'.
  { destruct Hcase as [->|[-> Hnew]]; [done|].
    apply ghost_ok_snoc; [done|done|by destruct Hregs|done]. }
  set (reg' := {| M_capacity := M_capacity reg; M_data := M_data reg;
                  M_size := M_size reg + n;
                  M_ref_count := M_ref_count reg + 1 |}) in *.
  set (q := M_data reg + M_size reg).
  assert (ghost_ok (<[it := reg']> regions) ((q, n) :: live)) as Hnew.
  { apply (ghost_ok_add regions live it reg); [done|done| |done|done|done| | |].
    - unfold layout_ok. simpl. lia.
    - simpl. lia.
    - unfold inside, q. simpl. lia.
    - intros x Hx Hxin. split.
      + unfold inside in *. simpl. lia.
      + apply disjoint_blocks_spec. unfold inside, q in *. simpl. lia. }
  split_and!; [unfold q, nullptr; lia| |done].
  destruct Hnew as (_ & _ & (Hnd & _ & Hdis) & _).
  apply NoDup_cons in Hnd as [Hfresh _].
  apply Forall_forall. intros x Hx. apply Hdis.
  - apply elem_of_cons. by left.
  - apply elem_of_cons. by right.
  - intros <-. done.
Qed.

(** [deallocate] of a live block leaves the other live blocks in place. *)
Lemma heap_ok_deallocate p n rs live :
  heap_ok rs live → (p, n) ∈ live → 0 ≤ n < 2 ^ 64 →
  heap_ok (deallocate p n rs) (filter (λ b, b ≠ (p, n)) live).
Proof.
  intros [Hrs Hok] Hb Hn.
  destruct (deallocate_ok 0 p n rs) as [Hrs' _];
    [done|by apply budget_zero|done|].
  split; [done|]. clear Hrs'.
  destruct (ghost_ok_inside _ _ _ Hok Hb) as (it & reg & Hl & Hbin & Hbw).
  pose proof (ghost_ok_positive _ _ _ Hok Hb) as Hpos.
  pose proof (registry_ok_lookup _ _ _ Hrs Hl) as Hreg.
  pose proof Hreg as [Hlay [Hrc Hzero]].
  pose proof Hlay as (? & ? & ? & ?).
  unfold inside in Hbin. simpl in Hbin, Hpos.
  assert (find_region_containing p rs = Some (it, reg)) as Hfind.
  { apply find_region_containing_owner;
      [by apply registry_ok_layout|by destruct Hrs|done|lia]. }
  destruct (deallocate_owned p n rs it reg Hreg Hn Hfind) as [Hocc ->].
  apply (ghost_ok_remove rs live it reg); [done|done|done|done| |done|done|done|].
  - unfold layout_ok. simpl. split_and!; try lia;
      destruct (M_ref_count reg - 1 =? 0); try lia;
      rewrite top_ok by done;
      destruct (M_data reg + M_size reg - n =? p) eqn:E; try lia;
      apply Z.eqb_eq in E; lia.
  - intros x Hx Hne Hxin.
    destruct (M_ref_count reg - 1 =? 0) eqn:E.
    + apply Z.eqb_eq in E. exfalso.
      apply (sole_occupant rs live it reg (p, n) x); try done. lia.
    + rewrite top_ok by done.
      destruct (M_data reg + M_size reg - n =? p) eqn:Et;
        [|unfold inside in *; simpl; lia].
      apply Z.eqb_eq in Et.
      pose proof (below_top_block rs live it reg (p, n) x Hok Hl Hb Hx Hne)
        as Hbelow.
      unfold inside in *. simpl in *. lia.
Qed.

(** [reallocate] of a live block (or of null, for a non-empty block) keeps
    the live blocks apart. *)
Lemma heap_ok_reallocate store p from_n to_n hint rs live :
  heap_ok rs live → budget 1 rs →
  0 ≤ from_n < 2 ^ 64 → 0 ≤ to_n < size_limit → store_ok store to_n rs →
  call_wf (Reallocate p from_n to_n hint) live →
  let '(r, rs') := reallocate store p from_n to_n hint rs in
  heap_ok rs' (live_step (Reallocate p from_n to_n hint) r live).
Proof.
  intros Hheap Hb Hfrom Hto Hstore Hwf. pose proof Hheap as [Hrs Hok].
  destruct (reallocate_ok 0 store p from_n to_n hint rs) as [Hrs' _];
    [done|lia|done|done|done|done|].
  simpl in Hwf. simpl live_step.
  destruct (p =? nullptr) eqn:Hp.
  { assert (reallocate store p from_n to_n hint rs
            = allocate store to_n hint rs) as ->
      by (unfold reallocate; by rewrite Hp).
    pose proof (heap_ok_allocate store to_n hint rs live Hheap Hb) as Hnew.
    destruct (allocate store to_n hint rs) as [q rs'].
    apply Hnew; [lia|done]. }
  destruct (ghost_ok_inside _ _ _ Hok Hwf) as (it & reg & Hl & Hbin & Hbw).
  pose proof (ghost_ok_positive _ _ _ Hok Hwf) as Hpos.
  pose proof (registry_ok_lookup _ _ _ Hrs Hl) as [Hlay [Hrc Hzero]].
  pose proof Hlay as (? & ? & ? & ?).
  pose proof Hbin as Hbin'. unfold inside in Hbin'. simpl in Hbin', Hpos.
  assert (find_region_containing p rs = Some (it, reg)) as Hfind.
  { apply find_region_containing_owner;
      [by apply registry_ok_layout|by destruct Hrs|done|lia]. }
  destruct (to_n =? 0) eqn:Ht.
  { assert (reallocate store p from_n to_n hint rs
            = (nullptr, deallocate p from_n rs)) as ->
      by (unfold reallocate; by rewrite Hp, Hfind, Ht).
    by apply heap_ok_deallocate. }
  apply Z.eqb_neq in Ht.
  set (diff := to_ptrdiff (wrap64 (to_n - from_n))).
  destruct ((wrap64 (top reg - from_n) =? p)
            && (wrap64 (top reg + diff) <? end_ reg)) eqn:Hplace.
  { assert (reallocate store p from_n to_n hint rs
            = (p, <[it := resize diff reg]> rs)) as Heq.
    { unfold reallocate. rewrite Hp, Hfind, (proj2 (Z.eqb_neq _ _) Ht).
      fold diff. by rewrite Hplace. }
    rewrite Heq in Hrs' |- *. simpl in Hrs'. split; [done|].
    apply in_place_test in Hplace as (Htop & Hend & Hsize);
      [|done|done|done|lia].
    rewrite top_ok in Htop by done. fold diff in Hsize.
    apply (ghost_ok_exchange rs live it reg); try done.
    - unfold layout_ok. rewrite Hsize. simpl. lia.
    - simpl. lia.
    - unfold inside. rewrite Hsize. simpl. lia.
    - intros x Hx Hne Hxin.
      pose proof (below_top_block rs live it reg (p, from_n) x Hok Hl Hwf Hx
                    Hne Hbin Hxin) as Hbelow. simpl in Hbelow.
      split; [|apply disjoint_blocks_spec; simpl; lia].
      unfold inside in *. rewrite Hsize. simpl. lia. }
  destruct (to_n <=? from_n) eqn:Hle.
  { assert (reallocate store p from_n to_n hint rs = (p, rs)) as ->.
    { unfold reallocate. rewrite Hp, Hfind, (proj2 (Z.eqb_neq _ _) Ht).
      fold diff. by rewrite Hplace, Hle. }
    split; [done|]. apply Z.leb_le in Hle.
    rewrite <- (list_insert_id rs it reg Hl) at 1.
    apply (ghost_ok_exchange rs live it reg); try done.
    - simpl. lia.
    - unfold inside. simpl. lia.
    - intros x Hx Hne Hxin. split; [done|].
      destruct Hok as (_ & _ & (_ & _ & Hdis) & _).
      pose proof (Hdis _ _ Hx Hwf Hne) as Hd%disjoint_blocks_spec.
      apply disjoint_blocks_spec. simpl in *. lia. }
  apply Z.leb_gt in Hle.
  assert (reallocate store p from_n to_n hint rs
          = ((allocate store to_n hint rs).1,
             deallocate p from_n (allocate store to_n hint rs).2)) as ->.
  { unfold reallocate. rewrite Hp, Hfind, (proj2 (Z.eqb_neq _ _) Ht).
    fold diff. rewrite Hplace, (proj2 (Z.leb_gt _ _) Hle).
    by destruct (allocate store to_n hint rs). }
  pose proof (heap_ok_allocate store to_n hint rs live Hheap Hb) as Hnew.
  destruct (allocate store to_n hint rs) as [q rs1]. simpl.
  destruct Hnew as (_ & _ & Hheap1); [lia|done|].
  pose proof (heap_ok_deallocate p from_n rs1 ((q, to_n) :: live) Hheap1)
    as Hfree.
  rewrite filter_cons, decide_True in Hfree by (intros [= _ ?]; lia).
  apply Hfree; [|done]. apply elem_of_cons. by right.
Qed.

Lemma heap_ok_perform k store c rs live :
  heap_ok rs live → 0 ≤ k < 2 ^ 32 - 1 → budget (k + 1) rs →
  call_ok store c rs → call_wf c live →
  let '(r, rs') := perform store c rs in
  heap_ok rs' (live_step c r live) ∧ budget k rs'.
Proof.
  intros Hheap Hk Hb Hc Hwf.
  destruct (perform_ok k store c rs) as [_ Hb']; [by destruct Hheap|done..|].
  assert (budget 1 rs) as Hb1 by (apply (budget_weaken (k + 1)); [lia|done]).
  destruct c as [n hint|p n|p from_n to_n hint]; simpl in *.
  - destruct Hc as [Hn Hstore].
    pose proof (heap_ok_allocate store n hint rs live Hheap Hb1) as H.
    destruct (allocate store n hint rs) as [q rs']. split; [|done].
    apply H; [lia|done].
  - split; [|done]. destruct Hwf as [->|Hwf].
    + rewrite deallocate_not_contained.
      * destruct Hheap as [Hrs Hok]. split; [done|].
        rewrite filter_absent; [done|]. by eapply ghost_ok_no_null.
      * apply null_not_contained. by destruct Hheap as [[Hrs _] _].
    + by apply heap_ok_deallocate.
  - destruct Hc as (Hfrom & Hto & Hstore).
    pose proof (heap_ok_reallocate store p from_n to_n hint rs live Hheap Hb1
                  Hfrom Hto Hstore Hwf) as H.
    destruct (reallocate store p from_n to_n hint rs) as [r rs'].
    split; [|done]. exact H.
Qed.

Lemma heap_ok_run k calls rs live :
  heap_ok rs live → 0 ≤ k →
  Z.of_nat (length calls) + k < 2 ^ 32 →
  budget (Z.of_nat (length calls) + k) rs →
  trace_ok calls rs live →
  heap_ok (run calls rs).2 (live_after calls rs live) ∧
  budget k (run calls rs).2.
Proof.
  revert rs live.
  induction calls as [|[store c] calls IH]; intros rs live Hheap Hk Hlen Hb.
  { intros _. simpl. split; [done|].
    simpl in Hb. by replace (0 + k) with k in Hb by lia. }
  intros (Hc & Hwf & Hrest). rewrite run_step. simpl.
  simpl length in Hlen, Hb. rewrite Nat2Z.inj_succ in Hlen, Hb.
  pose proof (heap_ok_perform (Z.of_nat (length calls) + k) store c rs live
                Hheap) as H.
  destruct (perform store c rs) as [r rs']. simpl.
  destruct H as [Hheap' Hb']; [lia| |done|done|].
  { by replace (Z.of_nat (length calls) + k + 1)
      with (Z.succ (Z.of_nat (length calls)) + k) by lia. }
  apply IH; [done|done|lia|done|done].
Qed.

(** X14.  Safety of the engine within its limits.  Take any sequence of fewer than
    [2^32 - 1] calls from the empty engine in which every size is below
    [size_limit], the store hands out fresh blocks, and every block that is
    freed or resized is live and comes with its size.  Then every region
    satisfies [0 ≤ size ≤ capacity], and a further [allocate (n, hint)] with
    [0 < n < size_limit] returns a non-null pointer whose [n] bytes meet no
    live block. *)
Theorem allocate_apart_from_live calls store n hint :
  Z.of_nat (length calls) < 2 ^ 32 - 1 →
  trace_ok calls [] [] →
  0 < n < size_limit → store_ok store n (run calls []).2 →
  Forall (λ r, 0 ≤ M_size r ≤ M_capacity r) (run calls []).2 ∧
  let '(q, _) := allocate store n hint (run calls []).2 in
  q ≠ nullptr ∧
  Forall (λ b, overlap q n b.1 b.2 = false) (live_after calls [] []).
Proof.
  intros Hlen Htrace Hn Hstore.
  destruct (heap_ok_run 1 calls [] []) as [Hheap Hb];
    [apply heap_ok_empty|lia|lia|apply Forall_nil_2|done|].
  split.
  - destruct Hheap as [[Hrs _] _]. eapply Forall_impl; [exact Hrs|].
    by intros r [(_ & _ & ? & _) _].
  - pose proof (heap_ok_allocate store n hint _ _ Hheap Hb Hn Hstore) as H.
    destruct (allocate store n hint (run calls []).2) as [q rs'].
    by destruct H as (? & ? & _).
Qed.

(** The hypotheses of [allocate_apart_from_live] at work: two blocks are
    allocated, the first is freed, the second is grown in place; the next
    block then lies above the grown one. *)
Example allocate_after_a_run :
  let calls := [ (store_at 65536, Allocate 10 nullptr);
                 (store_at 131072, Allocate 20 nullptr);
                 (store_at 131072, Deallocate 65536 10);
                 (store_at 131072, Reallocate 65546 20 40 nullptr) ] in
  (run calls []).1 = [65536; 65546; nullptr; 65546] ∧
  live_after calls [] [] = [(65546, 40)] ∧
  (allocate (store_at 131072) 8 nullptr (run calls []).2).1 = 65586 ∧
  Forall (λ b, overlap 65586 8 b.1 b.2 = false) (live_after calls [] []).
Proof.
  intros calls.
  assert (trace_ok calls [] []) as Htrace by compute_done.
  assert (store_ok (store_at 131072) 8 (run calls []).2) as Hstore
    by compute_done.
  pose proof (allocate_apart_from_live calls (store_at 131072) 8 nullptr)
    as [_ H]; [simpl; lia|done|unfold size_limit; lia|done|].
  assert ((allocate (store_at 131072) 8 nullptr (run calls []).2).1 = 65586)
    as Hq by (vm_compute; reflexivity).
  destruct (allocate (store_at 131072) 8 nullptr (run calls []).2) as [q rs'].
  simpl in Hq. subst q. destruct H as [_ H].
  split_and!; [vm_compute; reflexivity..|done|done].
Defined.

(** ** Stack discipline keeps one region *)

(** C4, as stated, fails, in two ways.  At capacity: [allocate (4096)],
    [deallocate], [allocate (4096)] has one block of 4096 bytes live at a
    time, the capacity of the region created for it, yet the second request
    creates a second region, because a cleared region of capacity 4096 does
    not pass [top () + 4096 < end ()].  Out of order: in the alternating
    sequence [allocate (3000)], [deallocate (nullptr)], [allocate (1000)],
    [deallocate] of the first block, [allocate (500)] the live blocks never
    hold more than 4000 bytes, but the block that is freed is not on top, its
    bytes are not reclaimed, and the last request creates a second region. *)
Lemma live_set_fits_yet_two_regions :
  let at_capacity := [ (store_at 65536, Allocate 4096 nullptr);
                       (store_at 131072, Deallocate 65536 4096);
                       (store_at 131072, Allocate 4096 nullptr) ] in
  let out_of_order := [ (store_at 65536, Allocate 3000 nullptr);
                        (store_at 131072, Deallocate nullptr 0);
                        (store_at 131072, Allocate 1000 nullptr);
                        (store_at 131072, Deallocate 65536 3000);
                        (store_at 131072, Allocate 500 nullptr) ] in
  (run at_capacity []).1 = [65536; nullptr; 131072] ∧
  live_after (take 1 at_capacity) [] [] = [(65536, 4096)] ∧
  live_after (take 2 at_capacity) [] [] = [] ∧
  M_capacity <$> (run at_capacity []).2 = [4096; 4096] ∧
  trace_ok out_of_order [] [] ∧
  (run out_of_order []).1 = [65536; nullptr; 68536; nullptr; 131072] ∧
  live_after (take 3 out_of_order) [] [] = [(68536, 1000); (65536, 3000)] ∧
  live_after out_of_order [] [] = [(131072, 500); (68536, 1000)] ∧
  M_capacity <$> (run out_of_order []).2 = [4096; 4096].
Proof.
  intros at_capacity out_of_order.
  split_and!;
    [vm_compute; reflexivity..|compute_done
    |vm_compute; reflexivity|vm_compute; reflexivity
    |vm_compute; reflexivity|vm_compute; reflexivity].
Qed.

Lemma live_bytes_nonneg d live : stacked d live → 0 ≤ live_bytes live.
Proof.
  induction live as [|b below IH]; simpl; [done|].
  intros (_ & Hpos & Hbelow). specialize (IH Hbelow). lia.
Qed.

Lemma stacked_range d live (b : block) :
  stacked d live → b ∈ live → d ≤ b.1 < d + live_bytes live.
Proof.
  induction live as [|x below IH]; simpl; [by intros _ ?%elem_of_nil|].
  intros (Hx & Hpos & Hbelow) Hb.
  pose proof (live_bytes_nonneg d below Hbelow).
  apply elem_of_cons in Hb as [->|Hb]; [lia|].
  specialize (IH Hbelow Hb). lia.
Qed.

(** Giving back the block on top of the stack leaves the blocks below. *)
Lemma stacked_pop d (b : block) below :
  stacked d (b :: below) → filter (λ x, x ≠ b) (b :: below) = below.
Proof.
  intros (Hb & Hpos & Hbelow).
  rewrite filter_cons. destruct (decide (b ≠ b)) as [Hne|_]; [done|].
  apply filter_absent. intros Hin.
  pose proof (stacked_range d below b Hbelow Hin). lia.
Qed.

Lemma stacked_no_null d n live :
  0 < d → stacked d live → filter (λ x, x ≠ (nullptr, n)) live = live.
Proof.
  intros Hd Hlive. apply filter_absent. intros Hin.
  pose proof (stacked_range d live _ Hlive Hin) as H. simpl in H.
  unfold nullptr in H. lia.
Qed.

Lemma lifo_step store c rs live :
  lifo_inv rs live → lifo_call store c rs live →
  lifo_inv (perform store c rs).2 (live_step c (perform store c rs).1 live).
Proof.
  intros Hinv Hcall.
  destruct c as [n hint|p n|p from_n to_n hint]; [| |done]; simpl.
  - (* allocate *)
    destruct Hcall as (Hn & Hcount & Hroom).
    destruct rs as [|reg [|reg' rs]]; [| |done].
    + (* the first region is created *)
      simpl in Hinv. subst live.
      destruct Hroom as (Hbase & Hlimit & _).
      assert (find_region_fitting n hint [] = None) as Hfit.
      { unfold find_region_fitting. simpl. by destruct (hint =? nullptr). }
      rewrite (allocate_new _ _ _ _ Hfit). cbn [fst snd app].
      set (r := Region_new store n).
      assert (layout_ok r) as Hlay.
      { unfold layout_ok, r, Region_new. simpl. lia. }
      destruct (grown_region n r) as [-> [Hlay1 _]];
        [done|lia|simpl; lia|simpl; lia|].
      rewrite top_ok by done. simpl.
      split_and!; first [done|lia|simpl; lia|unfold layout_ok in *; simpl in *; lia].
    + (* the region has room *)
      destruct Hinv as (Hlay & Hsize & Hrc & Hlen & Hstack).
      apply Forall_inv in Hroom. simpl in Hroom.
      assert (find_region_fitting n hint [reg] = Some (0%nat, reg)) as Hfit.
      { apply find_region_fitting_single. apply fits_ok; [done|lia|lia]. }
      rewrite (allocate_found _ _ _ _ _ _ Hfit). cbn [fst snd].
      pose proof (live_bytes_nonneg _ _ Hstack).
      destruct (grown_region n reg) as [-> [Hlay1 _]]; [done|lia|lia|lia|].
      rewrite top_ok by done. simpl.
      split_and!; first [done|lia|simpl; lia|unfold layout_ok in *; simpl in *; lia].
  - (* deallocate *)
    destruct (decide (p = nullptr)) as [->|Hp].
    + destruct rs as [|reg [|reg' rs]]; [| |done].
      * simpl in Hinv. by subst live.
      * destruct Hinv as (Hlay & Hsize & Hrc & Hlen & Hstack).
        pose proof Hlay as (? & ? & ? & ?).
        rewrite deallocate_not_contained.
        -- rewrite (stacked_no_null (M_data reg)) by done. by split_and!.
        -- unfold find_region_containing. simpl.
           destruct (contains nullptr reg) eqn:E; [|done].
           apply contains_ok in E; [|done]. unfold nullptr in E. lia.
    + destruct Hcall as [?|Hhead]; [done|].
      destruct live as [|b below]; [done|]. injection Hhead as ->.
      destruct rs as [|reg [|reg' rs]]; [done| |done].
      destruct Hinv as (Hlay & Hsize & Hrc & Hlen & Hstack).
      pose proof Hstack as (Hb & Hpos & Hbelow). simpl in Hb, Hpos, Hsize.
      pose proof (live_bytes_nonneg _ _ Hbelow).
      pose proof Hlay as (? & ? & ? & ?). unfold addr_limit in *.
      rewrite (stacked_pop (M_data reg)) by done.
      assert (region_ok reg) as Hreg.
      { split; [done|]. unfold count_ok. simpl length in Hrc, Hlen. lia. }
      assert (find_region_containing p [reg] = Some (0%nat, reg)) as Hown.
      { unfold find_region_containing. simpl.
        assert (contains p reg = true) as ->; [|done].
        apply contains_ok; [done|]. lia. }
      destruct (deallocate_owned p n [reg] 0%nat reg Hreg) as [_ ->];
        [lia|done|].
      simpl length in Hrc, Hlen. simpl.
      rewrite top_ok by done.
      assert ((if M_ref_count reg - 1 =? 0 then 0
               else if M_data reg + M_size reg - n =? p
                    then M_size reg - n else M_size reg)
              = live_bytes below) as ->.
      { destruct (M_ref_count reg - 1 =? 0) eqn:E.
        - apply Z.eqb_eq in E. destruct below; [done|simpl in Hrc; lia].
        - rewrite (proj2 (Z.eqb_eq _ _)) by lia. lia. }
      split_and!; first [done|lia|simpl; lia|unfold layout_ok in *; simpl in *; lia].
Qed.

Lemma lifo_run calls rs live :
  lifo_inv rs live → lifo_ok calls rs live →
  lifo_inv (run calls rs).2 (live_after calls rs live).
Proof.
  revert rs live.
  induction calls as [|[store c] calls IH]; intros rs live Hinv Hok; [done|].
  destruct Hok as [Hcall Hok]. rewrite run_step. simpl.
  pose proof (lifo_step store c rs live Hinv Hcall) as Hnext.
  destruct (perform store c rs) as [r regions]. by apply IH.
Qed.

Lemma lifo_ok_take k calls rs live :
  lifo_ok calls rs live → lifo_ok (take k calls) rs live.
Proof.
  revert k rs live.
  induction calls as [|[store c] calls IH]; intros [|k] rs live Hok; try done.
  destruct Hok as [Hcall Hok]. simpl. split; [done|].
  destruct (perform store c rs) as [r regions]. by apply IH.
Qed.

(** C4, amended.  Take calls of [allocate] and [deallocate] from the empty
    engine that follow stack discipline: every request is non-empty and below
    [2^63], fewer than [2^32 - 1] blocks are live when it is made, the store
    is ready with a fresh block for the first request, and every later
    request, together with the live bytes, stays strictly below the capacity
    of the region; every [deallocate] is given [nullptr] or the most recently
    allocated live block, with its size.  Then after every call there is at
    most one region, its size is the number of live bytes and its reference
    count the number of live blocks. *)
Theorem stack_discipline_keeps_one_region calls :
  lifo_ok calls [] [] →
  ∀ k, (length (run (take k calls) []).2 ≤ 1)%nat ∧
       Forall (λ r, M_size r = live_bytes (live_after (take k calls) [] []) ∧
                    M_ref_count r
                    = Z.of_nat (length (live_after (take k calls) [] [])))
              (run (take k calls) []).2.
Proof.
  intros Hok k.
  pose proof (lifo_run (take k calls) [] [] eq_refl
                (lifo_ok_take k calls [] [] Hok)) as Hinv.
  destruct (run (take k calls) []).2 as [|reg [|reg' rs]]; [| |done].
  - split; [simpl; lia|constructor].
  - destruct Hinv as (_ & Hsize & Hrc & _).
    split; [simpl; lia|]. by apply Forall_singleton.
Qed.

Lemma stack_discipline_keeps_one_region_witness :
  let calls := [ (store_at 65536, Allocate 3000 nullptr);
                 (store_at 131072, Allocate 1000 nullptr);
                 (store_at 131072, Deallocate 68536 1000);
                 (store_at 131072, Deallocate nullptr 0);
                 (store_at 131072, Allocate 500 131072);
                 (store_at 131072, Allocate 595 nullptr);
                 (store_at 131072, Deallocate 69036 595);
                 (store_at 131072, Deallocate 68536 500);
                 (store_at 131072, Deallocate 65536 3000);
                 (store_at 131072, Allocate 4095 nullptr) ] in
  (run calls []).1
  = [65536; 68536; nullptr; nullptr; 68536; 69036; nullptr; nullptr; nullptr;
     65536] ∧
  (length (run calls []).2 ≤ 1)%nat.
Proof.
  intros calls. split; [vm_compute; reflexivity|].
  assert (lifo_ok calls [] []) as Hok by compute_done.
  destruct (stack_discipline_keeps_one_region calls Hok (length calls))
    as [Hone _].
  by rewrite firstn_all in Hone.
Defined.

(** ** The two backend variants *)

Lemma vm_find_region_containing p rs :
  VirtualMemory.find_region_containing p (vm_region <$> rs) =
  prod_map id vm_region <$> find_region_containing p rs.
Proof. unfold VirtualMemory.find_region_containing. by rewrite scan_fmap. Qed.

Lemma vm_find_region_fitting n hint rs :
  VirtualMemory.find_region_fitting n hint (vm_region <$> rs) =
  prod_map id vm_region <$> find_region_fitting n hint rs.
Proof.
  unfold VirtualMemory.find_region_fitting, find_region_fitting.
  rewrite scan_fmap, vm_find_region_containing.
  destruct (hint =? nullptr); [done|].
  destruct (find_region_containing hint rs) as [[it r]|]; [|done].
  simpl. change (VirtualMemory.end_ (vm_region r)) with (end_ r).
  change (VirtualMemory.top (vm_region r)) with (top r).
  fold (fits n r). by destruct (fits n r).
Qed.

Lemma vm_allocate store n hint rs :
  VirtualMemory.allocate store n hint (vm_region <$> rs) =
  prod_map id (fmap vm_region) (allocate store n hint rs).
Proof.
  unfold VirtualMemory.allocate, allocate. rewrite vm_find_region_fitting.
  destruct (find_region_fitting n hint rs) as [[it reg]|]; simpl.
  - by rewrite list_fmap_insert.
  - rewrite list_fmap_insert, fmap_app, length_fmap. done.
Qed.

Lemma vm_deallocate p n rs :
  VirtualMemory.deallocate p n (vm_region <$> rs) =
  vm_region <$> deallocate p n rs.
Proof.
  unfold VirtualMemory.deallocate, deallocate.
  rewrite vm_find_region_containing.
  destruct (find_region_containing p rs) as [[it reg]|]; simpl; [|done].
  rewrite list_fmap_insert. f_equal.
  change (VirtualMemory.unused (VirtualMemory.unref (vm_region reg)))
    with (unused (unref reg)).
  change (VirtualMemory.top (VirtualMemory.unref (vm_region reg)))
    with (top (unref reg)).
  destruct (unused (unref reg)); [done|].
  by destruct (wrap64 (top (unref reg) - n) =? p).
Qed.

Lemma vm_reallocate store p from_n to_n hint rs :
  VirtualMemory.reallocate store p from_n to_n hint (vm_region <$> rs) =
  prod_map id (fmap vm_region) (reallocate store p from_n to_n hint rs).
Proof.
  unfold VirtualMemory.reallocate, reallocate.
  rewrite vm_find_region_containing, vm_allocate, vm_deallocate.
  destruct (p =? nullptr); [done|].
  destruct (find_region_containing p rs) as [[it reg]|]; simpl; [|done].
  destruct (to_n =? 0); [done|].
  change (VirtualMemory.top (vm_region reg)) with (top reg).
  change (VirtualMemory.end_ (vm_region reg)) with (end_ reg).
  destruct (_ && _); simpl; [by rewrite list_fmap_insert|].
  destruct (to_n <=? from_n); [done|].
  destruct (allocate store to_n hint rs) as [new_p regions]. simpl.
  by rewrite vm_deallocate.
Qed.

Lemma vm_perform_agrees store c rs :
  vm_perform store c (vm_region <$> rs) =
  prod_map id (fmap vm_region) (perform store c rs).
Proof.
  destruct c; simpl;
    [apply vm_allocate|by rewrite vm_deallocate|apply vm_reallocate].
Qed.

(** C9.  The two variants hold the same engine.  On registries that agree
    field by field (capacity, base, size, occupancy) both searches stop at
    the same region; and with the backing store answering each call alike,
    every call sequence makes both variants change sizes and occupancy counts
    alike and return the same pointers, hence at the same offsets in the
    same regions.  The address of the block a new region gets is the only
    thing that enters from the backing store. *)
Theorem variants_agree :
  (∀ n hint rs,
     VirtualMemory.find_region_fitting n hint (vm_region <$> rs) =
     prod_map id vm_region <$> find_region_fitting n hint rs) ∧
  (∀ p rs,
     VirtualMemory.find_region_containing p (vm_region <$> rs) =
     prod_map id vm_region <$> find_region_containing p rs) ∧
  ∀ calls rs,
    vm_run calls (vm_region <$> rs) =
    ((run calls rs).1, vm_region <$> (run calls rs).2).
Proof.
  split_and!; [apply vm_find_region_fitting|apply vm_find_region_containing|].
  intros calls. induction calls as [|[store c] calls IH]; intros rs; [done|].
  rewrite run_step. simpl. rewrite vm_perform_agrees.
  destruct (perform store c rs) as [r regions]. simpl.
  rewrite IH. done.
Qed.

(** ** Regions stay where they are *)

Lemma dtor_insert rs it reg reg' :
  rs !! it = Some reg → destruct reg' = destruct reg →
  RegionDeleter_dtor (<[it := reg']> rs) = RegionDeleter_dtor rs.
Proof.
  intros Hl Heq. unfold RegionDeleter_dtor.
  rewrite list_fmap_insert, Heq. apply list_insert_id.
  by rewrite list_lookup_fmap, Hl.
Qed.

Lemma dtor_allocate store n hint rs :
  RegionDeleter_dtor (allocate store n hint rs).2 =
  RegionDeleter_dtor rs ++
  match find_region_fitting n hint rs with
  | Some _ => []
  | None => [(store (Z.max S_capacity n), Z.max S_capacity n)]
  end.
Proof.
  destruct (find_region_fitting n hint rs) as [[it reg]|] eqn:Hfit.
  - rewrite (allocate_found _ _ _ _ _ _ Hfit). simpl.
    apply find_region_fitting_Some in Hfit as (Hl & _).
    rewrite (dtor_insert rs it reg) by done. by rewrite app_nil_r.
  - rewrite (allocate_new _ _ _ _ Hfit). simpl.
    unfold RegionDeleter_dtor. by rewrite fmap_app.
Qed.

Lemma dtor_deallocate p n rs :
  RegionDeleter_dtor (deallocate p n rs) = RegionDeleter_dtor rs.
Proof.
  unfold deallocate.
  destruct (find_region_containing p rs) as [[it reg]|] eqn:Hfind; [|done].
  apply find_region_containing_Some in Hfind as (Hl & _).
  apply (dtor_insert rs it reg); [done|].
  unfold destruct. destruct (unused (unref reg)); [done|].
  by destruct (wrap64 (top (unref reg) - n) =? p).
Qed.

Lemma dtor_reallocate store p from_n to_n hint rs :
  RegionDeleter_dtor (reallocate store p from_n to_n hint rs).2 =
  RegionDeleter_dtor rs ∨
  RegionDeleter_dtor (reallocate store p from_n to_n hint rs).2 =
  RegionDeleter_dtor rs
  ++ [(store (Z.max S_capacity to_n), Z.max S_capacity to_n)].
Proof.
  assert (∀ h,
    RegionDeleter_dtor (allocate store to_n h rs).2 = RegionDeleter_dtor rs ∨
    RegionDeleter_dtor (allocate store to_n h rs).2 =
    RegionDeleter_dtor rs
    ++ [(store (Z.max S_capacity to_n), Z.max S_capacity to_n)]) as Halloc.
  { intros h. rewrite dtor_allocate.
    destruct (find_region_fitting to_n h rs); [left; apply app_nil_r|by right]. }
  unfold reallocate. destruct (p =? nullptr); [apply Halloc|].
  destruct (find_region_containing p rs) as [[it reg]|] eqn:Hfind;
    [|by left].
  destruct (to_n =? 0); [left; apply dtor_deallocate|].
  apply find_region_containing_Some in Hfind as (Hl & _).
  destruct (_ && _); [left; by apply (dtor_insert rs it reg)|].
  destruct (to_n <=? from_n); [by left|].
  specialize (Halloc hint).
  destruct (allocate store to_n hint rs) as [new_p regions]. simpl in *.
  by rewrite dtor_deallocate.
Qed.

(** X1.  Whatever its arguments, a call leaves every region of the registry
    at its place with its base and capacity, so that teardown releases each
    block as it was acquired.  [deallocate] adds no region; [allocate] adds
    one exactly when no region passes the fit search, and [reallocate] adds at
    most one; the added region is the block the store handed out for
    [max (4096, n)] bytes, [n] being the requested size. *)
Theorem calls_keep_regions_in_place store n hint p from_n rs :
  RegionDeleter_dtor (allocate store n hint rs).2 =
    RegionDeleter_dtor rs ++
    match find_region_fitting n hint rs with
    | Some _ => []
    | None => [(store (Z.max S_capacity n), Z.max S_capacity n)]
    end ∧
  RegionDeleter_dtor (deallocate p n rs) = RegionDeleter_dtor rs ∧
  (RegionDeleter_dtor (reallocate store p from_n n hint rs).2 =
     RegionDeleter_dtor rs ∨
   RegionDeleter_dtor (reallocate store p from_n n hint rs).2 =
     RegionDeleter_dtor rs
     ++ [(store (Z.max S_capacity n), Z.max S_capacity n)]).
Proof.
  split_and!;
    [apply dtor_allocate|apply dtor_deallocate|apply dtor_reallocate].
Qed.

Lemma dtor_perform_prefix store c rs :
  RegionDeleter_dtor rs `prefix_of` RegionDeleter_dtor (perform store c rs).2.
Proof.
  destruct c as [n hint|p n|p from_n to_n hint]; simpl.
  - rewrite dtor_allocate. by apply prefix_app_r.
  - by rewrite dtor_deallocate.
  - destruct (dtor_reallocate store p from_n to_n hint rs) as [-> | ->];
      [done|by apply prefix_app_r].
Qed.

Lemma capacity_perform store c rs :
  Forall (λ r, default_region_size ≤ M_capacity r) rs →
  Forall (λ r, default_region_size ≤ M_capacity r) (perform store c rs).2.
Proof.
  intros Hrs.
  assert (Forall (λ b : Z * Z, default_region_size ≤ b.2)
            (RegionDeleter_dtor rs)) as Hd.
  { rewrite Forall_forall in Hrs. apply Forall_forall.
    intros b (r & -> & Hr)%list_elem_of_fmap. by apply Hrs. }
  assert (Forall (λ b : Z * Z, default_region_size ≤ b.2)
            (RegionDeleter_dtor (perform store c rs).2)) as Hd'.
  2: { rewrite Forall_forall in Hd'. apply Forall_forall. intros r Hr.
       apply (Hd' (destruct r)). by apply list_elem_of_fmap_2. }
  assert (∀ m, Forall (λ b : Z * Z, default_region_size ≤ b.2)
                 (RegionDeleter_dtor rs
                  ++ [(store (Z.max S_capacity m), Z.max S_capacity m)]))
    as Hnew.
  { intros m. apply Forall_app. split; [done|]. apply Forall_singleton.
    unfold default_region_size. simpl. lia. }
  destruct c as [n hint|p n|p from_n to_n hint]; simpl.
  - rewrite dtor_allocate.
    destruct (find_region_fitting n hint rs); [by rewrite app_nil_r|done].
  - by rewrite dtor_deallocate.
  - by destruct (dtor_reallocate store p from_n to_n hint rs) as [-> | ->].
Qed.

(** X2.  Over any sequence of calls the registry only grows at its end:
    the releases teardown would make before the calls are a prefix of those
    it makes after them.  Starting from the empty engine, every region has
    at least the capacity [default_region_size ()]. *)
Theorem registry_only_grows calls :
  (∀ rs, RegionDeleter_dtor rs
         `prefix_of` RegionDeleter_dtor (run calls rs).2) ∧
  Forall (λ r, default_region_size ≤ M_capacity r) (run calls []).2.
Proof.
  split.
  - induction calls as [|[store c] calls IH]; intros rs; [done|].
    rewrite run_step. simpl. etrans; [apply dtor_perform_prefix|apply IH].
  - assert (∀ rs, Forall (λ r, default_region_size ≤ M_capacity r) rs →
              Forall (λ r, default_region_size ≤ M_capacity r)
                (run calls rs).2) as H; [|by apply H].
    induction calls as [|[store c] calls IH]; intros rs Hrs; [done|].
    rewrite run_step. simpl. by apply IH, capacity_perform.
Qed.

(** ** Allocation and its undoing *)

Lemma find_region_containing_app p rs extra it reg :
  find_region_containing p rs = Some (it, reg) →
  find_region_containing p (rs ++ extra) = Some (it, reg).
Proof.
  intros (Hl & Hc & Hb)%find_region_containing_Some.
  apply (scan_first _ 0%nat); [by apply lookup_app_l_Some|done|].
  intros j r Hj Hr. apply (Hb j r Hj).
  rewrite lookup_app_l in Hr; [done|].
  apply lookup_lt_Some in Hl. lia.
Qed.

Lemma deallocate_app p n rs extra :
  is_Some (find_region_containing p rs) →
  deallocate p n (rs ++ extra) = deallocate p n rs ++ extra.
Proof.
  intros [[it reg] Hfind]. unfold deallocate.
  rewrite (find_region_containing_app _ _ extra _ _ Hfind), Hfind.
  apply find_region_containing_Some in Hfind as (Hl & _).
  apply insert_app_l. by eapply lookup_lt_Some.
Qed.

(** Giving back the block that [allocate] has just returned restores the
    registry, up to the region that may have been created for the block,
    which is left idle at the end of the registry. *)
Lemma free_after_allocate store n hint rs :
  registry_ok rs → budget 1 rs → 0 < n < size_limit → store_ok store n rs →
  let '(q, rs') := allocate store n hint rs in
  q ≠ nullptr ∧ is_Some (find_region_containing q rs') ∧
  ∃ extra, deallocate q n rs' = rs ++ extra ∧ Forall idle extra ∧
           (length extra ≤ 1)%nat ∧ length rs' = length (rs ++ extra).
Proof.
  intros Hrs Hb Hn Hstore.
  destruct (allocate_shape store n hint rs)
    as (it & reg & regions & Hcase & Hregs & Hl & Hroom & Hsat & ->);
    [done|done|lia|done|].
  region_facts Hregs Hl. pose proof Hlay as (? & ? & ? & ?).
  set (reg2 := {| M_capacity := M_capacity reg; M_data := M_data reg;
                  M_size := M_size reg + n;
                  M_ref_count := M_ref_count reg + 1 |}).
  assert (region_ok reg2) as Hreg2.
  { split; [unfold layout_ok|unfold count_ok]; simpl; lia. }
  assert (registry_ok (<[it := reg2]> regions)) as Hregs2.
  { by apply (registry_ok_insert regions it reg). }
  assert (find_region_containing (M_data reg + M_size reg)
            (<[it := reg2]> regions) = Some (it, reg2)) as Hown.
  { apply find_region_containing_owner.
    - by apply registry_ok_layout.
    - by destruct Hregs2.
    - apply list_lookup_insert_eq. by eapply lookup_lt_Some.
    - simpl. lia. }
  split_and!; [unfold nullptr; lia|by rewrite Hown|].
  destruct (deallocate_owned (M_data reg + M_size reg) n
              (<[it := reg2]> regions) it reg2 Hreg2) as [_ ->];
    [unfold size_limit in *; lia|done|].
  assert (∀ s, {| M_capacity := M_capacity reg2; M_data := M_data reg2;
                  M_size := s; M_ref_count := M_ref_count reg2 - 1 |}
               = {| M_capacity := M_capacity reg; M_data := M_data reg;
                    M_size := s; M_ref_count := M_ref_count reg |}) as Hrec.
  { intros s. simpl. f_equal. lia. }
  rewrite Hrec. clear Hrec.
  assert ((if M_ref_count reg2 - 1 =? 0 then 0
           else if top reg2 - n =? M_data reg + M_size reg
                then M_size reg2 - n else M_size reg2) = M_size reg) as ->.
  { destruct Hreg2 as [Hlay2 _]. rewrite (top_ok reg2) by done. simpl.
    replace (M_ref_count reg + 1 - 1) with (M_ref_count reg) by lia.
    destruct (M_ref_count reg =? 0) eqn:E.
    - apply Z.eqb_eq in E. by rewrite Hzero.
    - rewrite (proj2 (Z.eqb_eq _ _)) by lia. lia. }
  rewrite list_insert_insert_eq.
  assert (<[it := {| M_capacity := M_capacity reg; M_data := M_data reg;
                     M_size := M_size reg;
                     M_ref_count := M_ref_count reg |}]> regions = regions)
    as ->.
  { apply list_insert_id. rewrite Hl. by destruct reg. }
  rewrite length_insert.
  destruct Hcase as [->|[-> Hnew]].
  - exists []. rewrite app_nil_r. split_and!; [done|constructor|simpl; lia|done].
  - exists [reg]. split_and!; [done| |simpl; lia|done].
    apply Forall_singleton. split; [by apply Hzero|done].
Qed.

(** X3.  In a well-formed registry whose reference counts are below
    [2^32 - 1], with the store ready with a fresh block, the block that
    [allocate (n)] returns for [0 < n < 2^63] is taken from addresses that no
    region owned before the call, and after the call every address of the
    block is owned by one and the same region. *)
Theorem allocated_block_changes_owner store n hint rs :
  registry_ok rs → budget 1 rs → 0 < n < size_limit → store_ok store n rs →
  let '(q, rs') := allocate store n hint rs in
  ∃ it reg, ∀ a, q ≤ a < q + n →
    find_region_containing a rs = None ∧
    find_region_containing a rs' = Some (it, reg).
Proof.
  intros Hrs Hb Hn Hstore.
  destruct (allocate_shape store n hint rs)
    as (it & reg & regions & Hcase & Hregs & Hl & Hroom & Hsat & ->);
    [done|done|lia|done|].
  region_facts Hregs Hl. pose proof Hlay as (? & ? & ? & ?).
  set (reg2 := {| M_capacity := M_capacity reg; M_data := M_data reg;
                  M_size := M_size reg + n;
                  M_ref_count := M_ref_count reg + 1 |}).
  assert (region_ok reg2) as Hreg2.
  { split; [unfold layout_ok|unfold count_ok]; simpl; lia. }
  assert (registry_ok (<[it := reg2]> regions)) as Hregs2.
  { by apply (registry_ok_insert regions it reg). }
  exists it, reg2. intros a Ha. split.
  - apply find_region_containing_None, Forall_lookup. intros j rj Hj.
    assert (regions !! j = Some rj) as Hj'.
    { destruct Hcase as [->|[-> _]]; [done|by apply lookup_app_l_Some]. }
    apply contains_false. rewrite <- contains_spec.
    destruct (registry_ok_lookup _ _ _ Hregs Hj') as [Hlayj _].
    rewrite contains_ok by done. pose proof Hlayj as (? & ? & ? & ?).
    destruct (decide (j = it)) as [->|Hne].
    + assert (rj = reg) as -> by congruence. lia.
    + destruct Hregs as [_ Hap].
      pose proof (all_apart_distinct _ _ _ _ _ Hap Hne Hj' Hl) as Hapart.
      unfold apart in Hapart. lia.
  - apply find_region_containing_owner.
    + by apply registry_ok_layout.
    + by destruct Hregs2.
    + apply list_lookup_insert_eq. by eapply lookup_lt_Some.
    + simpl. lia.
Qed.

Lemma allocated_block_changes_owner_witness :
  find_region_containing 65550 (one_region 10) = None ∧
  ∃ reg, find_region_containing 65550
           (allocate (store_at 131072) 20 nullptr (one_region 10)).2
         = Some (0%nat, reg).
Proof.
  assert (registry_ok (one_region 10)) as Hrs by compute_done.
  assert (budget 1 (one_region 10)) as Hb by compute_done.
  assert (0 < 20 < size_limit) as Hn by (unfold size_limit; lia).
  assert (store_ok (store_at 131072) 20 (one_region 10)) as Hstore
    by compute_done.
  pose proof (allocated_block_changes_owner (store_at 131072) 20 nullptr
                (one_region 10) Hrs Hb Hn Hstore) as H.
  change (allocate (store_at 131072) 20 nullptr (one_region 10))
    with (65546, [ {| M_capacity := 4096; M_data := 65536; M_size := 30;
                      M_ref_count := 2 |} ]) in H |- *.
  destruct H as (it & reg & H). destruct (H 65550) as [Hbefore Hafter]; [lia|].
  split; [exact Hbefore|]. exists reg.
  assert (it = 0%nat) as <-; [|exact Hafter].
  vm_compute in Hafter. by injection Hafter as <- _.
Defined.

(** X4.  Round trip through the front end, in a well-formed registry whose
    reference counts are below [2^32 - 1] and with the store ready with a
    fresh block: [Allocator<T>::allocate (n)] for [n > 0] objects with
    [n * sizeof (T) < 2^63] returns a non-null pointer, and
    [Allocator<T>::deallocate] of that pointer with the same [n] restores the
    registry; if a region had to be created for the block, it stays, idle, at
    the end of the registry. *)
Theorem allocator_round_trip sizeof_T store n hint rs :
  registry_ok rs → budget 1 rs →
  0 < n → 0 < sizeof_T → n * sizeof_T < size_limit →
  store_ok store (n * sizeof_T) rs →
  let '(p, rs') := Allocator_allocate sizeof_T store n hint rs in
  p ≠ nullptr ∧
  ∃ extra, Allocator_deallocate sizeof_T p n rs' = rs ++ extra ∧
           Forall idle extra ∧ length rs' = length (rs ++ extra).
Proof.
  intros Hrs Hb Hn Hs Hbytes Hstore.
  assert (0 < n * sizeof_T) as Hpos by lia.
  assert (wrap64 (n * sizeof_T) = n * sizeof_T) as Hwrap.
  { unfold size_limit in *. apply wrap64_small. lia. }
  unfold Allocator_allocate, Allocator_deallocate.
  rewrite (proj2 (Z.eqb_neq n 0)) by lia. rewrite Hwrap.
  pose proof (free_after_allocate store (n * sizeof_T) hint rs Hrs Hb) as H.
  destruct (allocate store (n * sizeof_T) hint rs) as [p rs'].
  destruct H as (Hp & _ & extra & Hfree & Hidle & _ & Hlen); [lia|done|].
  split; [done|]. rewrite (proj2 (Z.eqb_neq p nullptr)) by done.
  by exists extra.
Qed.

Lemma allocator_round_trip_witness :
  Allocator_deallocate 8
    (Allocator_allocate 8 (store_at 131072) 5 nullptr (one_region 10)).1 5
    (Allocator_allocate 8 (store_at 131072) 5 nullptr (one_region 10)).2
  = one_region 10.
Proof.
  assert (registry_ok (one_region 10)) as Hrs by compute_done.
  assert (budget 1 (one_region 10)) as Hb by compute_done.
  assert (store_ok (store_at 131072) (5 * 8) (one_region 10)) as Hstore
    by compute_done.
  pose proof (allocator_round_trip 8 (store_at 131072) 5 nullptr
                (one_region 10) Hrs Hb) as H.
  destruct (Allocator_allocate 8 (store_at 131072) 5 nullptr (one_region 10))
    as [p rs'] eqn:Heq.
  destruct H as (_ & extra & Hfree & _ & Hlen);
    [lia|lia|unfold size_limit; lia|done|].
  simpl. rewrite Hfree.
  assert (length rs' = 1%nat) as Hone.
  { vm_compute in Heq. by injection Heq as _ <-. }
  rewrite Hone, length_app in Hlen. simpl in Hlen.
  destruct extra; [by rewrite app_nil_r|simpl in Hlen; lia].
Defined.

(** X5.  Stack discipline: start from a well-formed registry and make fewer
    than [2^32] requests, few enough for no reference count to reach [2^32],
    each non-empty and below [2^63], with the store ready with a fresh block
    at each.  When the blocks are allocated one after the other and given
    back in the reverse order, each with its size, the registry is restored;
    regions created on the way stay, idle, at its end, at most one for each
    request. *)
Theorem nested_allocations_unwind requests rs :
  registry_ok rs → budget (Z.of_nat (length requests)) rs →
  Z.of_nat (length requests) < 2 ^ 32 →
  nest_ok requests rs →
  ∃ extra, nest requests rs = rs ++ extra ∧ Forall idle extra ∧
           (length extra ≤ length requests)%nat.
Proof.
  revert rs.
  induction requests as [|[[store n] hint] requests IH];
    intros rs Hrs Hb Hlen Hok.
  { exists []. rewrite app_nil_r. split_and!; [done|constructor|done]. }
  destruct Hok as (Hn & Hstore & Hrest). simpl nest.
  simpl length in Hb, Hlen. rewrite Nat2Z.inj_succ in Hb, Hlen.
  destruct (allocate_ok (Z.of_nat (length requests)) store n hint rs)
    as [Hrs1 Hb1];
    [done|lia|by replace (Z.of_nat (length requests) + 1)
                    with (Z.succ (Z.of_nat (length requests))) by lia
    |lia|done|].
  pose proof (free_after_allocate store n hint rs Hrs) as Hfree.
  destruct (allocate store n hint rs) as [p rs1]. simpl in *.
  destruct Hfree as (_ & Hown & extra0 & Hfree & Hidle0 & Hlen0 & _);
    [apply (budget_weaken (Z.succ (Z.of_nat (length requests)))); [lia|done]
    |done|done|].
  destruct (IH rs1) as (extra1 & -> & Hidle1 & Hlen1); [done|done|lia|done|].
  rewrite deallocate_app, Hfree by done.
  exists (extra0 ++ extra1). rewrite <- app_assoc.
  split_and!; [done|by apply Forall_app|rewrite length_app; lia].
Qed.

Lemma nested_allocations_unwind_witness :
  nest [ (store_at 65536, 100, nullptr);
         (store_at 131072, 4000, nullptr);
         (store_at 262144, 50, 65536) ] []
  = [ {| M_capacity := 4096; M_data := 65536; M_size := 0;
         M_ref_count := 0 |};
      {| M_capacity := 4096; M_data := 131072; M_size := 0;
         M_ref_count := 0 |} ].
Proof.
  set (requests := [ (store_at 65536, 100, nullptr);
                     (store_at 131072, 4000, nullptr);
                     (store_at 262144, 50, 65536) ]).
  assert (registry_ok []) as Hrs by compute_done.
  assert (budget (Z.of_nat (length requests)) []) as Hb by compute_done.
  assert (Z.of_nat (length requests) < 2 ^ 32) as Hlen by (simpl; lia).
  assert (nest_ok requests []) as Hok by compute_done.
  destruct (nested_allocations_unwind requests [] Hrs Hb Hlen Hok)
    as (extra & Heq & _ & _).
  rewrite Heq. simpl. vm_compute in Heq. by rewrite <- Heq.
Defined.

(** ** Reallocation *)

(** The converse of [in_place_test]: the test of [reallocate] succeeds for
    the top block of a region whenever the new size ends before the end of
    the region. *)
Lemma in_place_test_fires p from_n to_n reg :
  layout_ok reg → M_data reg ≤ p → 0 ≤ from_n → 0 ≤ to_n →
  p + from_n = top reg → p + to_n < end_ reg →
  let diff := to_ptrdiff (wrap64 (to_n - from_n)) in
  (wrap64 (top reg - from_n) =? p) && (wrap64 (top reg + diff) <? end_ reg)
  = true ∧
  resize diff reg =
    {| M_capacity := M_capacity reg; M_data := M_data reg;
       M_size := p - M_data reg + to_n; M_ref_count := M_ref_count reg |}.
Proof.
  intros Hlay Hp Hfrom Hto Htop Hend diff.
  assert (∀ s, wrap64 (s + diff) = wrap64 (s + to_n - from_n)) as Hdiff.
  { intros s. unfold diff. rewrite add_to_ptrdiff.
    unfold wrap64. rewrite Zplus_mod_idemp_r. f_equal. lia. }
  rewrite Hdiff. unfold resize. rewrite Hdiff.
  rewrite end_ok in Hend |- * by done. rewrite top_ok in Htop |- * by done.
  pose proof Hlay as (? & ? & ? & ?). unfold addr_limit in *.
  replace (M_data reg + M_size reg - from_n) with p by lia.
  replace (M_data reg + M_size reg + to_n - from_n) with (p + to_n) by lia.
  replace (M_size reg + to_n - from_n) with (p - M_data reg + to_n) by lia.
  rewrite !wrap64_small by lia.
  split; [|done]. apply andb_true_iff.
  split; [by apply Z.eqb_eq|by apply Z.ltb_lt].
Qed.

Lemma owned_not_null p rs it reg :
  Forall layout_ok rs → find_region_containing p rs = Some (it, reg) →
  layout_ok reg ∧ M_data reg ≤ p < M_data reg + M_size reg ∧
  (p =? nullptr) = false.
Proof.
  intros Hlay (Hl & Hc & _)%find_region_containing_Some.
  assert (layout_ok reg) as Hreg by (by eapply Forall_lookup_1).
  apply contains_ok in Hc; [|done]. pose proof Hreg as (? & _).
  split_and!; [done|lia|lia|]. apply Z.eqb_neq. unfold nullptr. lia.
Qed.

Lemma find_region_containing_insert p rs it reg reg' :
  find_region_containing p rs = Some (it, reg) → contains p reg' = true →
  find_region_containing p (<[it := reg']> rs) = Some (it, reg').
Proof.
  intros (Hl & _ & Hbefore)%find_region_containing_Some Hc.
  apply (scan_first _ 0%nat); [|done|].
  - apply list_lookup_insert_eq. by eapply lookup_lt_Some.
  - intros j r Hj Hr. apply (Hbefore j r Hj).
    by rewrite list_lookup_insert_ne in Hr by lia.
Qed.

(** X6.  [reallocate] of the top block of a region to a size that ends
    before the end of the region (growing or shrinking) returns the same
    pointer, asks the store for nothing and changes the size of that one
    region to end with the block. *)
Theorem reallocate_in_place store p from_n to_n hint rs it reg :
  Forall layout_ok rs → find_region_containing p rs = Some (it, reg) →
  0 ≤ from_n → p + from_n = top reg → 0 < to_n → p + to_n < end_ reg →
  reallocate store p from_n to_n hint rs =
    (p, <[it := {| M_capacity := M_capacity reg; M_data := M_data reg;
                   M_size := p - M_data reg + to_n;
                   M_ref_count := M_ref_count reg |}]> rs) ∧
  ∀ r', (reallocate store p from_n to_n hint rs).2 !! it = Some r' →
        top r' = p + to_n.
Proof.
  intros Hlay Hfind Hfrom Htop Hto Hend.
  destruct (owned_not_null p rs it reg Hlay Hfind) as (Hreg & Hp & Hnull).
  destruct (in_place_test_fires p from_n to_n reg) as [Htest Hres];
    [done|lia|done|lia|done|done|].
  assert (reallocate store p from_n to_n hint rs =
          (p, <[it := resize (to_ptrdiff (wrap64 (to_n - from_n))) reg]> rs))
    as Heq.
  { unfold reallocate.
    by rewrite Hnull, Hfind, (proj2 (Z.eqb_neq to_n 0)), Htest by lia. }
  rewrite Heq, Hres. split; [done|]. simpl. intros r' Hr'.
  apply find_region_containing_Some in Hfind as (Hl & _).
  rewrite list_lookup_insert_eq in Hr' by (by eapply lookup_lt_Some).
  injection Hr' as <-. rewrite end_ok in Hend by done.
  pose proof Hreg as (? & ? & ? & ?). unfold addr_limit in *.
  unfold top, data. simpl.
  replace (M_data reg + (p - M_data reg + to_n)) with (p + to_n) by lia.
  apply wrap64_small. lia.
Qed.

Lemma reallocate_in_place_witness :
  reallocate (store_at 131072) 65540 6 100 nullptr (one_region 10)
  = (65540, one_region 104).
Proof.
  assert (Forall layout_ok (one_region 10)) as Hlay by compute_done.
  assert (find_region_containing 65540 (one_region 10)
          = Some (0%nat, {| M_capacity := 4096; M_data := 65536;
                            M_size := 10; M_ref_count := 1 |})) as Hfind
    by reflexivity.
  destruct (reallocate_in_place (store_at 131072) 65540 6 100 nullptr
              (one_region 10) _ _ Hlay Hfind) as [Heq _];
    [lia|reflexivity|lia|vm_compute; reflexivity|].
  exact Heq.
Defined.

(** X7.  Resizing the top block of a region in place and then back to its
    old size leaves the registry exactly as it was, provided the region is
    not full (the test for room is strict). *)
Theorem reallocate_in_place_round_trip store store' p from_n to_n hint hint'
    rs it reg :
  Forall layout_ok rs → find_region_containing p rs = Some (it, reg) →
  0 < from_n → p + from_n = top reg → top reg < end_ reg →
  0 < to_n → p + to_n < end_ reg →
  let '(q, rs1) := reallocate store p from_n to_n hint rs in
  q = p ∧ reallocate store' q to_n from_n hint' rs1 = (p, rs).
Proof.
  intros Hlay Hfind Hfrom Htop Hroom Hto Hend.
  destruct (owned_not_null p rs it reg Hlay Hfind) as (Hreg & Hp & Hnull).
  destruct (in_place_test_fires p from_n to_n reg) as [Htest Hres];
    [done|lia|lia|lia|done|done|].
  assert (reallocate store p from_n to_n hint rs =
          (p, <[it := resize (to_ptrdiff (wrap64 (to_n - from_n))) reg]> rs))
    as ->.
  { unfold reallocate.
    by rewrite Hnull, Hfind, (proj2 (Z.eqb_neq to_n 0)), Htest by lia. }
  split; [done|]. rewrite Hres.
  set (reg1 := {| M_capacity := M_capacity reg; M_data := M_data reg;
                  M_size := p - M_data reg + to_n;
                  M_ref_count := M_ref_count reg |}).
  pose proof Hreg as (? & ? & ? & ?).
  rewrite top_ok in Htop, Hroom by done. rewrite end_ok in Hroom, Hend by done.
  assert (layout_ok reg1) as Hreg1 by (unfold layout_ok; simpl; lia).
  assert (find_region_containing p (<[it := reg1]> rs) = Some (it, reg1))
    as Hfind1.
  { apply (find_region_containing_insert p rs it reg); [done|].
    apply contains_ok; [done|]. simpl. lia. }
  destruct (in_place_test_fires p to_n from_n reg1) as [Htest1 Hres1];
    [done|simpl; lia|lia|lia
    |rewrite top_ok by done; simpl; lia
    |rewrite end_ok by done; simpl; lia|].
  unfold reallocate.
  rewrite Hnull, Hfind1, (proj2 (Z.eqb_neq from_n 0)), Htest1 by lia.
  rewrite Hres1, list_insert_insert_eq. f_equal.
  apply list_insert_id.
  apply find_region_containing_Some in Hfind as (-> & _).
  f_equal. destruct reg. simpl in *. f_equal. lia.
Qed.

Lemma reallocate_in_place_round_trip_witness :
  reallocate (store_at 131072) 65540 100 6 nullptr
    (reallocate (store_at 131072) 65540 6 100 nullptr (one_region 10)).2
  = (65540, one_region 10).
Proof.
  assert (Forall layout_ok (one_region 10)) as Hlay by compute_done.
  assert (find_region_containing 65540 (one_region 10)
          = Some (0%nat, {| M_capacity := 4096; M_data := 65536;
                            M_size := 10; M_ref_count := 1 |})) as Hfind
    by reflexivity.
  pose proof (reallocate_in_place_round_trip (store_at 131072)
                (store_at 131072) 65540 6 100 nullptr nullptr
                (one_region 10) _ _ Hlay Hfind) as H.
  destruct (reallocate (store_at 131072) 65540 6 100 nullptr (one_region 10))
    as [q rs1].
  destruct H as [-> Hback];
    [lia|reflexivity|vm_compute; reflexivity|lia|vm_compute; reflexivity|].
  exact Hback.
Defined.

(** X8.  [reallocate] of an owned block to a smaller or equal non-zero size
    never moves it: the pointer comes back, no region is created, no
    reference count changes and no region grows. *)
Theorem reallocate_shrink_keeps_block store p from_n to_n hint rs :
  Forall layout_ok rs → is_Some (find_region_containing p rs) →
  0 < to_n ≤ from_n → from_n < 2 ^ 64 →
  let '(q, rs') := reallocate store p from_n to_n hint rs in
  q = p ∧
  Forall2 (λ r r', destruct r' = destruct r ∧
                   M_ref_count r' = M_ref_count r ∧
                   M_size r' ≤ M_size r) rs rs'.
Proof.
  intros Hlay [[it reg] Hfind] Hto Hfrom.
  destruct (owned_not_null p rs it reg Hlay Hfind) as (Hreg & Hp & Hnull).
  assert (Forall2 (λ r r', destruct r' = destruct r ∧
                           M_ref_count r' = M_ref_count r ∧
                           M_size r' ≤ M_size r) rs rs) as Hsame.
  { apply Forall2_same_length_lookup_2; [done|].
    intros i x y Hx Hy. assert (x = y) as -> by congruence.
    split_and!; [done|done|lia]. }
  unfold reallocate.
  rewrite Hnull, Hfind, (proj2 (Z.eqb_neq to_n 0)) by lia.
  set (diff := to_ptrdiff (wrap64 (to_n - from_n))).
  destruct ((wrap64 (top reg - from_n) =? p)
            && (wrap64 (top reg + diff) <? end_ reg)) eqn:Hplace.
  - split; [done|].
    pose proof Hplace as [Htop _]%andb_true_iff.
    rewrite top_block_test in Htop by (done || lia).
    apply Z.eqb_eq in Htop. rewrite top_ok in Htop by done.
    pose proof Hreg as (? & ? & ? & ?). unfold addr_limit in *.
    apply in_place_test in Hplace as (_ & _ & Hsize);
      [|done|lia|unfold size_limit; lia|done].
    fold diff in Hsize.
    apply find_region_containing_Some in Hfind as (Hl & _).
    rewrite <- (list_insert_id rs it reg Hl) at 1.
    apply Forall2_insert; [done|].
    split_and!; [done|done|]. rewrite Hsize. lia.
  - rewrite (proj2 (Z.leb_le to_n from_n)) by lia. by split.
Qed.

Lemma reallocate_shrink_keeps_block_witness :
  reallocate (store_at 131072) 65538 4 2 nullptr (one_region 10)
  = (65538, one_region 10).
Proof.
  assert (Forall layout_ok (one_region 10)) as Hlay by compute_done.
  assert (is_Some (find_region_containing 65538 (one_region 10))) as Hfind
    by (by eexists).
  pose proof (reallocate_shrink_keeps_block (store_at 131072) 65538 4 2
                nullptr (one_region 10) Hlay Hfind) as H.
  destruct (reallocate (store_at 131072) 65538 4 2 nullptr (one_region 10))
    as [q rs'] eqn:Heq.
  destruct H as [-> _]; [lia|lia|].
  vm_compute in Heq. by injection Heq as <-.
Defined.

Lemma reallocate_moves_or_stays store p from_n to_n hint rs live :
  heap_ok rs live → budget 1 rs → (p, from_n) ∈ live →
  0 < to_n < size_limit → store_ok store to_n rs →
  (reallocate store p from_n to_n hint rs).1 = p ∨
  disjoint_blocks ((reallocate store p from_n to_n hint rs).1, to_n)
                  (p, from_n).
Proof.
  intros Hheap Hb Hlive Hto Hstore.
  pose proof Hheap as [Hrs Hok].
  destruct (ghost_ok_inside _ _ _ Hok Hlive) as (it & reg & Hl & Hbin & _).
  pose proof (ghost_ok_positive _ _ _ Hok Hlive) as Hpos.
  unfold inside in Hbin. simpl in Hbin, Hpos.
  assert (find_region_containing p rs = Some (it, reg)) as Hfind.
  { apply find_region_containing_owner;
      [by apply registry_ok_layout|by destruct Hrs|done|lia]. }
  destruct (owned_not_null p rs it reg) as (_ & _ & Hnull);
    [by apply registry_ok_layout|done|].
  unfold reallocate.
  rewrite Hnull, Hfind, (proj2 (Z.eqb_neq to_n 0)) by lia.
  destruct (_ && _); [by left|].
  destruct (to_n <=? from_n); [by left|].
  pose proof (heap_ok_allocate store to_n hint rs live Hheap Hb Hto Hstore)
    as Hnew.
  destruct (allocate store to_n hint rs) as [q rs']. simpl.
  destruct Hnew as (_ & Hapart & _). right.
  rewrite Forall_forall in Hapart. by apply Hapart.
Qed.

(** X9.  In a well-formed heap whose reference counts are below [2^32 - 1],
    with the store ready with a fresh block, [reallocate] of a live block to
    a size [to_n] with [0 < to_n < 2^63] returns a non-null pointer to a
    block that overlaps no other live block; the block either stays where it
    was, or the new block is disjoint from the old one (whose contents are
    copied over before it is given back); the heap is well formed again. *)
Theorem reallocate_apart_from_live store p from_n to_n hint rs live :
  heap_ok rs live → budget 1 rs → (p, from_n) ∈ live → from_n < 2 ^ 64 →
  0 < to_n < size_limit → store_ok store to_n rs →
  let '(q, rs') := reallocate store p from_n to_n hint rs in
  q ≠ nullptr ∧
  (q = p ∨ disjoint_blocks (q, to_n) (p, from_n)) ∧
  Forall (disjoint_blocks (q, to_n)) (filter (λ b, b ≠ (p, from_n)) live) ∧
  heap_ok rs' ((q, to_n) :: filter (λ b, b ≠ (p, from_n)) live).
Proof.
  intros Hheap Hb Hlive Hfrom Hto Hstore.
  pose proof Hheap as [_ Hok].
  pose proof (ghost_ok_positive _ _ _ Hok Hlive) as Hpos. simpl in Hpos.
  assert ((p =? nullptr) = false) as Hnull.
  { apply Z.eqb_neq. intros ->. by apply (ghost_ok_no_null rs live from_n). }
  pose proof (reallocate_moves_or_stays store p from_n to_n hint rs live
                Hheap Hb Hlive Hto Hstore) as Hmove.
  pose proof (heap_ok_reallocate store p from_n to_n hint rs live Hheap Hb)
    as Hnext.
  destruct (reallocate store p from_n to_n hint rs) as [q rs'].
  simpl in Hmove, Hnext.
  rewrite Hnull, (proj2 (Z.eqb_neq to_n 0)) in Hnext by lia.
  specialize (Hnext ltac:(lia) ltac:(lia) Hstore Hlive).
  pose proof Hnext as [_ Hok'].
  split_and!; [|done| |done].
  - intros ->. apply (ghost_ok_no_null _ _ to_n Hok'). left.
  - destruct Hok' as (_ & _ & (Hnodup & _ & Hdisj) & _).
    apply NoDup_cons in Hnodup as [Hfresh _].
    apply Forall_forall. intros x Hx. apply Hdisj.
    + left.
    + by right.
    + by intros <-.
Qed.

Lemma reallocate_apart_from_live_witness :
  let calls := [ (store_at 65536, Allocate 10 nullptr);
                 (store_at 131072, Allocate 20 nullptr) ] in
  live_after calls [] [] = [ (65546, 20); (65536, 10) ] ∧
  (reallocate (store_at 131072) 65536 10 50 nullptr (run calls []).2).1
  = 65566 ∧
  disjoint_blocks (65566, 50) (65536, 10) ∧
  Forall (disjoint_blocks (65566, 50)) [ (65546, 20) ].
Proof.
  intros calls.
  destruct (heap_ok_run 1 calls [] []) as [Hheap Hb];
    [apply heap_ok_empty|lia|simpl; lia|compute_done|compute_done|].
  assert ((65536, 10) ∈ live_after calls [] []) as Hlive by compute_done.
  assert (store_ok (store_at 131072) 50 (run calls []).2) as Hstore
    by compute_done.
  pose proof (reallocate_apart_from_live (store_at 131072) 65536 10 50
                nullptr _ _ Hheap Hb Hlive) as H.
  destruct (reallocate (store_at 131072) 65536 10 50 nullptr (run calls []).2)
    as [q rs'] eqn:Heq.
  destruct H as (_ & Hmove & Hapart & _);
    [lia|unfold size_limit; lia|done|].
  assert (q = 65566) as -> by (vm_compute in Heq; by injection Heq as <-).
  split_and!; [reflexivity|done| |exact Hapart].
  by destruct Hmove as [?|?].
Defined.

(** X10.  Once the last block of a region has been given back, the region is
    cleared and owns no address any more: a second [deallocate] of a pointer
    into it does nothing, and [reallocate] of such a pointer returns
    [nullptr] and does nothing. *)
Theorem cleared_region_owns_nothing p n rs it reg :
  registry_ok rs → find_region_containing p rs = Some (it, reg) →
  M_ref_count reg = 1 → 0 ≤ n < 2 ^ 64 →
  deallocate p n rs = <[it := clear (unref reg)]> rs ∧
  idle (clear (unref reg)) ∧
  ∀ a, M_data reg ≤ a < M_data reg + M_capacity reg →
    find_region_containing a (deallocate p n rs) = None ∧
    (∀ m, deallocate a m (deallocate p n rs) = deallocate p n rs) ∧
    (∀ store from_n to_n hint,
       reallocate store a from_n to_n hint (deallocate p n rs)
       = (nullptr, deallocate p n rs)).
Proof.
  intros Hrs Hfind Hone Hn.
  pose proof Hfind as (Hl & _)%find_region_containing_Some.
  region_facts Hrs Hl. pose proof Hlay as (? & ? & ? & ?).
  destruct (deallocate_owned p n rs it reg) as [_ Heq]; [done|done|done|].
  assert (clear (unref reg) =
          {| M_capacity := M_capacity reg; M_data := M_data reg;
             M_size := 0; M_ref_count := 0 |}) as Hclear.
  { unfold clear, unref. simpl. f_equal. rewrite Hone. reflexivity. }
  assert (deallocate p n rs = <[it := clear (unref reg)]> rs) as Hfree.
  { rewrite Heq, Hclear, Hone. reflexivity. }
  split; [done|]. split; [by rewrite Hclear|].
  intros a Ha.
  assert (find_region_containing a (deallocate p n rs) = None) as Hnone.
  { rewrite Hfree, Hclear.
    apply find_region_containing_None, Forall_lookup. intros j rj Hj.
    apply contains_false. rewrite <- contains_spec.
    destruct (decide (j = it)) as [->|Hne].
    - rewrite list_lookup_insert_eq in Hj by (by eapply lookup_lt_Some).
      injection Hj as <-.
      rewrite contains_ok by (unfold layout_ok; simpl; lia). simpl. lia.
    - rewrite list_lookup_insert_ne in Hj by done.
      destruct (registry_ok_lookup _ _ _ Hrs Hj) as [Hlayj _].
      rewrite contains_ok by done. pose proof Hlayj as (? & ? & ? & ?).
      destruct Hrs as [_ Hap].
      pose proof (all_apart_distinct _ _ _ _ _ Hap Hne Hj Hl) as Hapart.
      unfold apart in Hapart. lia. }
  split_and!; [done| |].
  - intros m. by apply deallocate_not_contained.
  - intros store from_n to_n hint. unfold reallocate.
    rewrite (proj2 (Z.eqb_neq a nullptr)) by (unfold nullptr; lia).
    by rewrite Hnone.
Qed.

Lemma cleared_region_owns_nothing_witness :
  deallocate 65540 6 (deallocate 65540 6 (one_region 10))
  = deallocate 65540 6 (one_region 10) ∧
  reallocate (store_at 131072) 65540 6 12 nullptr
    (deallocate 65540 6 (one_region 10))
  = (nullptr, deallocate 65540 6 (one_region 10)).
Proof.
  assert (registry_ok (one_region 10)) as Hrs by compute_done.
  assert (find_region_containing 65540 (one_region 10)
          = Some (0%nat, {| M_capacity := 4096; M_data := 65536;
                            M_size := 10; M_ref_count := 1 |})) as Hfind
    by reflexivity.
  destruct (cleared_region_owns_nothing 65540 6 (one_region 10) _ _ Hrs Hfind)
    as (_ & _ & Hgone); [reflexivity|lia|].
  destruct (Hgone 65540) as (_ & Hfree & Hmove); [simpl; lia|].
  split; [apply Hfree|apply Hmove].
Defined.

(** ** Reference counts and live blocks *)

(** X11.  Take a run of fewer than [2^32] calls from the empty engine in
    which every request is non-empty and below [2^63], the store is ready
    with a fresh block at every [allocate] and [reallocate], and only
    [nullptr] or live blocks are given back or resized, each with its size.
    After it the reference count of every region is the number of live
    blocks that start in it, and every live block lies in the used part of
    some region. *)
Theorem ref_count_counts_live_blocks calls :
  Z.of_nat (length calls) < 2 ^ 32 → trace_ok calls [] [] →
  Forall (λ reg, M_ref_count reg = occupants reg (live_after calls [] []))
         (run calls []).2 ∧
  Forall (λ b, ∃ it reg, (run calls []).2 !! it = Some reg ∧ inside reg b)
         (live_after calls [] []).
Proof.
  intros Hlen Htrace.
  destruct (heap_ok_run 0 calls [] []) as [[_ Hok] _];
    [apply heap_ok_empty|lia|lia|constructor|done|].
  destruct Hok as (_ & _ & _ & Hin & Hocc). split; [|done].
  eapply Forall_impl; [exact Hocc|]. by intros reg ->.
Qed.

Lemma ref_count_counts_live_blocks_witness :
  let calls := [ (store_at 65536, Allocate 10 nullptr);
                 (store_at 131072, Allocate 4090 nullptr);
                 (store_at 262144, Allocate 20 nullptr);
                 (store_at 262144, Deallocate 65536 10) ] in
  live_after calls [] [] = [ (65546, 20); (131072, 4090) ] ∧
  M_ref_count <$> (run calls []).2 = [1; 1] ∧
  Forall (λ reg, M_ref_count reg = occupants reg (live_after calls [] []))
         (run calls []).2.
Proof.
  intros calls. split_and!; [reflexivity|reflexivity|].
  apply ref_count_counts_live_blocks; [simpl; lia|compute_done].
Defined.

(** X12.  Take a run as in X11 (fewer than [2^32] calls from the empty
    engine, requests non-empty and below [2^63], the store ready, only
    [nullptr] or live blocks given back or resized, with their sizes).  When
    it ends with every block given back, every region is empty with
    reference count 0, so all memory is reclaimed: the next request of fewer
    than [default_region_size ()] bytes is served at the very start of the
    first region, whatever the hint, and creates no region. *)
Theorem all_freed_all_reclaimed calls :
  Z.of_nat (length calls) < 2 ^ 32 → trace_ok calls [] [] →
  live_after calls [] [] = [] →
  Forall idle (run calls []).2 ∧
  ∀ first store n hint,
    (run calls []).2 !! 0%nat = Some first → 0 ≤ n < default_region_size →
    (allocate store n hint (run calls []).2).1 = data first ∧
    length (allocate store n hint (run calls []).2).2
    = length (run calls []).2.
Proof.
  intros Hlen Htrace Hlive.
  destruct (heap_ok_run 0 calls [] []) as [[Hrs Hok] _];
    [apply heap_ok_empty|lia|lia|constructor|done|].
  rewrite Hlive in Hok. destruct Hok as (_ & _ & _ & _ & Hocc).
  assert (Forall idle (run calls []).2) as Hidle.
  { apply Forall_lookup. intros i r Hi.
    rewrite Forall_lookup in Hocc. specialize (Hocc i r Hi). simpl in Hocc.
    region_facts Hrs Hi. split; [apply Hzero|]; by rewrite <- Hocc. }
  split; [done|]. intros first store n hint Hfirst Hn.
  region_facts Hrs Hfirst. pose proof Hlay as (? & ? & ? & ?).
  assert (M_size first = 0) as Hempty.
  { rewrite Forall_lookup in Hidle. by destruct (Hidle _ _ Hfirst). }
  assert (fits n first = true) as Hfits.
  { unfold default_region_size in Hn. apply fits_ok; [done| |lia].
    unfold size_limit, S_capacity in *. lia. }
  assert (scan (fits n) 0 (run calls []).2 = Some (0%nat, first)) as Hscan.
  { destruct (run calls []).2 as [|r rest]; [done|].
    injection Hfirst as ->. simpl. by rewrite Hfits. }
  assert (find_region_containing hint (run calls []).2 = None) as Hhint.
  { apply find_region_containing_None. apply Forall_lookup. intros i r Hi.
    destruct (registry_ok_lookup _ _ _ Hrs Hi) as [Hlayr _].
    rewrite Forall_lookup in Hidle. destruct (Hidle _ _ Hi) as [Hsize _].
    apply contains_false. rewrite <- contains_spec, contains_ok by done. lia. }
  assert (find_region_fitting n hint (run calls []).2 = Some (0%nat, first))
    as Hfit.
  { unfold find_region_fitting. rewrite Hhint, Hscan. by destruct (_ =? _). }
  rewrite (allocate_found _ _ _ _ _ _ Hfit). simpl.
  rewrite length_insert. split; [|done].
  rewrite top_ok by done. unfold data. lia.
Qed.

Lemma all_freed_all_reclaimed_witness :
  let calls := [ (store_at 65536, Allocate 10 nullptr);
                 (store_at 131072, Allocate 4090 nullptr);
                 (store_at 262144, Reallocate 65536 10 30 nullptr);
                 (store_at 262144, Deallocate 131072 4090);
                 (store_at 262144, Deallocate 65536 30) ] in
  (allocate (store_at 262144) 100 131072 (run calls []).2).1 = 65536.
Proof.
  intros calls.
  assert (trace_ok calls [] []) as Htrace by compute_done.
  destruct (all_freed_all_reclaimed calls) as [_ Hnext];
    [simpl; lia|done|reflexivity|].
  destruct (Hnext {| M_capacity := 4096; M_data := 65536; M_size := 0;
                     M_ref_count := 0 |} (store_at 262144) 100 131072)
    as [Hp _]; [reflexivity|unfold default_region_size, S_capacity; lia|].
  exact Hp.
Defined.

(** ** The hint is only advice *)

(** X16.  The hint decides which fitting region serves a request, never
    whether a region is created: two calls of [allocate] that differ in the
    hint only ask the store for the same blocks and leave registries of the
    same length. *)
Theorem hint_never_costs_a_region store n hint hint' rs :
  RegionDeleter_dtor (allocate store n hint rs).2
  = RegionDeleter_dtor (allocate store n hint' rs).2 ∧
  length (allocate store n hint rs).2 = length (allocate store n hint' rs).2.
Proof.
  assert (RegionDeleter_dtor (allocate store n hint rs).2
          = RegionDeleter_dtor (allocate store n hint' rs).2) as Heq.
  { rewrite !dtor_allocate. f_equal.
    destruct (find_region_fitting n hint rs) as [[it reg]|] eqn:Hfit;
      destruct (find_region_fitting n hint' rs) as [[it' reg']|] eqn:Hfit';
      try done.
    - apply find_region_fitting_None in Hfit'.
      apply find_region_fitting_Some in Hfit as [Hl Hfits].
      rewrite Forall_lookup in Hfit'. specialize (Hfit' _ _ Hl). simpl in Hfit'.
      congruence.
    - apply find_region_fitting_None in Hfit.
      apply find_region_fitting_Some in Hfit' as [Hl Hfits].
      rewrite Forall_lookup in Hfit. specialize (Hfit _ _ Hl). simpl in Hfit.
      congruence. }
  split; [done|].
  apply (f_equal length) in Heq. unfold RegionDeleter_dtor in Heq.
  by rewrite !length_fmap in Heq.
Qed.

(** ** The invariants at work *)

Lemma run_ok_witness :
  registry_ok
    (run [ (store_at 65536, Allocate 10 nullptr);
           (store_at 131072, Deallocate 65536 10);
           (store_at 131072, Deallocate 65536 10);
           (store_at 131072, Deallocate 12345 4);
           (store_at 131072, Reallocate 999 1 2 nullptr);
           (store_at 131072, Allocate 5000 65536) ] []).2.
Proof.
  apply run_ok; [compute_done|compute_done|simpl; lia|compute_done].
Defined.

Lemma lifo_reuse_fresh_engine_witness :
  let '(A, rs1) := allocate (store_at 65536) 10 nullptr [] in
  let '(B, rs2) := allocate (store_at 131072) 20 nullptr rs1 in
  B = A + 10 ∧
  (allocate (store_at 131072) 15 65536 (deallocate B 20 rs2)).1 = B.
Proof.
  apply lifo_reuse_fresh_engine;
    [lia|lia|unfold S_capacity; lia|lia|compute_done].
Defined.

(** ** Requests of a region's size or more *)

(** X17.  A request of at least [default_region_size ()] bytes that no
    region fits is served by a region of its own, of exactly the requested
    capacity, which is full from the start: while the block lives, no
    request, not even one of 0 bytes, fits that region. *)
Theorem oversized_block_fills_its_region store n hint rs :
  find_region_fitting n hint rs = None →
  default_region_size ≤ n < size_limit →
  0 < store n → store n + n ≤ addr_limit →
  allocate store n hint rs =
    (store n, rs ++ [ {| M_capacity := n; M_data := store n; M_size := n;
                         M_ref_count := 1 |} ]) ∧
  ∀ m, 0 ≤ m < size_limit →
       fits m {| M_capacity := n; M_data := store n; M_size := n;
                 M_ref_count := 1 |} = false.
Proof.
  intros Hnone Hn Hbase Hend. unfold default_region_size, S_capacity in Hn.
  assert (Region_new store n =
          {| M_capacity := n; M_data := store n; M_size := 0;
             M_ref_count := 0 |}) as Hnew.
  { unfold Region_new, S_capacity. by rewrite Z.max_r by lia. }
  assert (layout_ok (Region_new store n)) as Hlay.
  { rewrite Hnew. unfold layout_ok, S_capacity. simpl. lia. }
  destruct (grown_region n (Region_new store n)) as [Hgrown _];
    [done|lia|rewrite Hnew; simpl; lia|rewrite Hnew; simpl; lia|].
  rewrite (allocate_new _ _ _ _ Hnone), Hgrown, top_ok by done.
  rewrite Hnew. simpl. split; [do 2 f_equal; lia|].
  intros m Hm. apply Z.ltb_ge.
  set (reg := {| M_capacity := n; M_data := store n; M_size := n;
                 M_ref_count := 1 |}).
  assert (layout_ok reg) as Hreg.
  { unfold layout_ok, S_capacity. simpl. lia. }
  rewrite top_ok, end_ok by done. simpl.
  unfold size_limit, addr_limit in *. rewrite wrap64_small by lia. lia.
Qed.

Lemma oversized_block_fills_its_region_witness :
  allocate (store_at 65536) 4096 nullptr [] =
    (65536, [ {| M_capacity := 4096; M_data := 65536; M_size := 4096;
                 M_ref_count := 1 |} ]) ∧
  fits 0 {| M_capacity := 4096; M_data := 65536; M_size := 4096;
            M_ref_count := 1 |} = false.
Proof.
  destruct (oversized_block_fills_its_region (store_at 65536) 4096 nullptr [])
    as [Heq Hfull];
    [reflexivity|unfold default_region_size, S_capacity, size_limit; lia
    |unfold store_at; lia|unfold store_at, addr_limit; lia|].
  split; [exact Heq|]. apply Hfull. unfold size_limit. lia.
Defined.
